(** * autokeypress: key resolution and the Runner

    A shallow embedding of the two platform files of the program
    (main_darwin.go and the Windows file) and the properties of their key
    resolution ([parseMacInput], [parseKeyInput]), of the [Runner] that drives
    the per-key tickers, and of the Start button handler.

    Conventions.
    - A Go [string] is a sequence of bytes: Rocq's [string], whose characters
      ([ascii]) are the bytes.  [len(s)] is [String.length].
    - A [rune] is a code point, kept in [N]: the decoder only produces values
      up to 0x10FFFF and the case mapping sends code points to code points.
    - Key codes and durations are machine integers, kept in [Z]. *)

From stdpp Require Import base numbers list strings.
From Stdlib Require Import NArith ZArith Ascii String Lia.

Open Scope string_scope.

(** ** Bytes and runes *)

Definition rune := N.

Definition byte_val (c : ascii) : N := N_of_ascii c.
Definition byte_of (n : N) : ascii := ascii_of_N n.

(** Go slicing: [s[n:]] and [s[:n]]. *)
Fixpoint str_drop (n : nat) (s : string) : string :=
  match n, s with
  | O, _ => s
  | S n', String _ t => str_drop n' t
  | S _, EmptyString => EmptyString
  end.

Fixpoint str_take (n : nat) (s : string) : string :=
  match n, s with
  | O, _ => EmptyString
  | S n', String c t => String c (str_take n' t)
  | S _, EmptyString => EmptyString
  end.

Fixpoint str_map (f : ascii -> ascii) (s : string) : string :=
  match s with
  | EmptyString => EmptyString
  | String c t => String (f c) (str_map f t)
  end.

Fixpoint str_forall (p : ascii -> bool) (s : string) : bool :=
  match s with
  | EmptyString => true
  | String c t => p c && str_forall p t
  end.

Fixpoint str_exists (p : ascii -> bool) (s : string) : bool :=
  match s with
  | EmptyString => false
  | String c t => p c || str_exists p t
  end.

(** ** The parts of Go's standard library the program calls *)

Module utf8.

Definition RuneError : rune := 0xFFFD%N.
Definition RuneSelf : N := 0x80%N.
Definition MaxRune : rune := 0x10FFFF%N.

(** What the [first] table of the decoder says about a leading byte: a
    one-byte rune, an illegal leading byte, or the size of the sequence
    together with the range accepted for its second byte. *)
Inductive lead : Type :=
| LeadASCII
| LeadIllegal
| LeadMulti (size : nat) (lo hi : N).

Definition first (b : N) : lead :=
  if (b <? 0x80)%N then LeadASCII
  else if (b <? 0xC2)%N then LeadIllegal
  else if (b <? 0xE0)%N then LeadMulti 2 0x80 0xBF
  else if (b =? 0xE0)%N then LeadMulti 3 0xA0 0xBF
  else if (b <? 0xED)%N then LeadMulti 3 0x80 0xBF
  else if (b =? 0xED)%N then LeadMulti 3 0x80 0x9F
  else if (b <? 0xF0)%N then LeadMulti 3 0x80 0xBF
  else if (b =? 0xF0)%N then LeadMulti 4 0x90 0xBF
  else if (b <? 0xF4)%N then LeadMulti 4 0x80 0xBF
  else if (b =? 0xF4)%N then LeadMulti 4 0x80 0x8F
  else LeadIllegal.

Definition outside (b lo hi : N) : bool := (b <? lo)%N || (hi <? b)%N.

(** [utf8.DecodeRuneInString]: the first rune of [s] and its width in
    bytes; [(RuneError, 1)] for an invalid or truncated sequence and
    [(RuneError, 0)] for the empty string. *)
Definition DecodeRuneInString (s : string) : rune * nat :=
  match s with
  | EmptyString => (RuneError, 0)
  | String c0 t0 =>
    let s0 := byte_val c0 in
    match first s0 with
    | LeadASCII => (s0, 1)
    | LeadIllegal => (RuneError, 1)
    | LeadMulti sz lo hi =>
      if (String.length s <? sz)%nat then (RuneError, 1) else
      match t0 with
      | EmptyString => (RuneError, 1)
      | String c1 t1 =>
        let s1 := byte_val c1 in
        if outside s1 lo hi then (RuneError, 1) else
        if (sz <=? 2)%nat then
          (N.lor (N.shiftl (N.land s0 0x1F) 6) (N.land s1 0x3F), 2)
        else
        match t1 with
        | EmptyString => (RuneError, 1)
        | String c2 t2 =>
          let s2 := byte_val c2 in
          if outside s2 0x80 0xBF then (RuneError, 1) else
          if (sz <=? 3)%nat then
            (N.lor (N.lor (N.shiftl (N.land s0 0x0F) 12)
                          (N.shiftl (N.land s1 0x3F) 6))
                   (N.land s2 0x3F), 3)
          else
          match t2 with
          | EmptyString => (RuneError, 1)
          | String c3 _ =>
            let s3 := byte_val c3 in
            if outside s3 0x80 0xBF then (RuneError, 1) else
            (N.lor (N.lor (N.lor (N.shiftl (N.land s0 0x07) 18)
                                 (N.shiftl (N.land s1 0x3F) 12))
                          (N.shiftl (N.land s2 0x3F) 6))
                   (N.land s3 0x3F), 4)
          end
        end
      end
    end
  end.

(** [utf8.AppendRune] on an empty buffer: the UTF-8 bytes of [r], those of
    [RuneError] when [r] is a surrogate or lies beyond [MaxRune]. *)
Definition three (r : rune) : string :=
  String (byte_of (N.lor 0xE0 (N.shiftr r 12)))
    (String (byte_of (N.lor 0x80 (N.land (N.shiftr r 6) 0x3F)))
      (String (byte_of (N.lor 0x80 (N.land r 0x3F))) EmptyString)).

Definition EncodeRune (r : rune) : string :=
  if (r <=? 0x7F)%N then String (byte_of r) EmptyString
  else if (r <=? 0x7FF)%N then
    String (byte_of (N.lor 0xC0 (N.shiftr r 6)))
      (String (byte_of (N.lor 0x80 (N.land r 0x3F))) EmptyString)
  else if (MaxRune <? r)%N || ((0xD800 <=? r)%N && (r <=? 0xDFFF)%N) then
    three RuneError
  else if (r <=? 0xFFFF)%N then three r
  else
    String (byte_of (N.lor 0xF0 (N.shiftr r 18)))
      (String (byte_of (N.lor 0x80 (N.land (N.shiftr r 12) 0x3F)))
        (String (byte_of (N.lor 0x80 (N.land (N.shiftr r 6) 0x3F)))
          (String (byte_of (N.lor 0x80 (N.land r 0x3F))) EmptyString))).

(** The loop [for len(s) > 0 { r, w := DecodeRuneInString(s); s = s[w:] }]
    that every rune-wise function of the library runs.  It yields each
    rune with the bytes it was read from.  A decoded rune is at least one
    byte wide, so [length s] rounds are enough ([decode_covers]). *)
Fixpoint decode_loop (fuel : nat) (s : string) : list (rune * string) :=
  match fuel with
  | O => []
  | S fuel' =>
    match s with
    | EmptyString => []
    | String _ _ =>
      let '(r, w) := DecodeRuneInString s in
      (r, str_take w s) :: decode_loop fuel' (str_drop w s)
    end
  end.

Definition decode (s : string) : list (rune * string) :=
  decode_loop (String.length s) s.

End utf8.

(** The conversion [[]rune(s)]. *)
Definition runes_of (s : string) : list rune := map fst (utf8.decode s).

(** The Unicode tables of package [unicode] are data of the Go distribution.
    The white-space property is small and written out; the upper-case mapping
    of the runes above ASCII ([unicode.To(unicode.UpperCase, r)], driven by
    the [CaseRanges] table) is taken as given. *)
Class CaseTable := { toUpperCase : rune -> rune }.

Module unicode.

(** [unicode.IsSpace]: the Latin-1 switch and the [White_Space] table. *)
Definition IsSpace (r : rune) : bool :=
  if (r <=? 0xFF)%N then
    ((0x09 <=? r)%N && (r <=? 0x0D)%N) || (r =? 0x20)%N
    || (r =? 0x85)%N || (r =? 0xA0)%N
  else
    (r =? 0x1680)%N || ((0x2000 <=? r)%N && (r <=? 0x200A)%N)
    || (r =? 0x2028)%N || (r =? 0x2029)%N || (r =? 0x202F)%N
    || (r =? 0x205F)%N || (r =? 0x3000)%N.

(** [unicode.ToUpper]: ASCII is handled in place, the rest by the table. *)
Definition ToUpper `{CaseTable} (r : rune) : rune :=
  if (r <=? 0x7F)%N then
    if (0x61 <=? r)%N && (r <=? 0x7A)%N then (r - 0x20)%N else r
  else toUpperCase r.

End unicode.

Module strings.

Definition concat_bytes (l : list string) : string :=
  fold_right String.append EmptyString l.

(** [strings.Map]: every rune of [s] is replaced by its image, re-encoded.
    (The library drops a rune whose image is negative; no image is.) *)
Definition Map (mapping : rune -> rune) (s : string) : string :=
  concat_bytes (map (fun c => utf8.EncodeRune (mapping (fst c))) (utf8.decode s)).

Definition isLowerByte (c : ascii) : bool :=
  (0x61 <=? byte_val c)%N && (byte_val c <=? 0x7A)%N.

Definition upperByte (c : ascii) : ascii :=
  if isLowerByte c then byte_of (byte_val c - 0x20)%N else c.

(** [strings.ToUpper]: a byte-wise fast path for ASCII-only strings and
    [Map(unicode.ToUpper, s)] otherwise. *)
Definition ToUpper `{CaseTable} (s : string) : string :=
  let isASCII := str_forall (fun c => (byte_val c <? utf8.RuneSelf)%N) s in
  let hasLower := str_exists isLowerByte s in
  if isASCII then
    if negb hasLower then s else str_map upperByte s
  else Map unicode.ToUpper s.

(** [strings.TrimSpace]: the leading and the trailing white-space runes
    (as defined by Unicode) are removed. *)
Fixpoint trimLeft (l : list (rune * string)) : list (rune * string) :=
  match l with
  | [] => []
  | c :: t => if unicode.IsSpace (fst c) then trimLeft t else l
  end.

Definition trimRight (l : list (rune * string)) : list (rune * string) :=
  rev (trimLeft (rev l)).

Definition TrimSpace (s : string) : string :=
  concat_bytes (map snd (trimRight (trimLeft (utf8.decode s)))).

(** [strings.Join]. *)
Fixpoint Join (elems : list string) (sep : string) : string :=
  match elems with
  | [] => EmptyString
  | [e] => e
  | e :: rest => e ++ sep ++ Join rest sep
  end.

End strings.

(** ** Data model (the same declarations in both platform files) *)

Record KeyEntry := {
  Key : string;
  IntervalMS : Z;
  Enabled : bool
}.

Record KeyTask := {
  KeyCode : Z;
  UnicodeRune : rune;
  UseUnicode : bool;
  Interval : Z
}.

(** An [error] is represented by its message. *)
Definition error := string.

(** The composite literals the resolvers return: [KeyTask{}],
    [KeyTask{KeyCode: code}] and [KeyTask{UnicodeRune: r, UseUnicode: true}]. *)
Definition KeyTask_zero : KeyTask :=
  {| KeyCode := 0; UnicodeRune := 0%N; UseUnicode := false; Interval := 0 |}.

Definition KeyTask_code (code : Z) : KeyTask :=
  {| KeyCode := code; UnicodeRune := 0%N; UseUnicode := false; Interval := 0 |}.

Definition KeyTask_unicode (r : rune) : KeyTask :=
  {| KeyCode := 0; UnicodeRune := r; UseUnicode := true; Interval := 0 |}.

(** [key[0]] and [runes[0]]; both are read only behind a length test. *)
Definition byte0 (s : string) : ascii :=
  match s with
  | String c _ => c
  | EmptyString => zero
  end.

Definition rune0 (l : list rune) : rune := hd 0%N l.

Definition functionKeys : list string :=
  ["F1"; "F2"; "F3"; "F4"; "F5"; "F6"; "F7"; "F8"; "F9"; "F10"; "F11"; "F12"].

(** ** Key resolution on macOS (main_darwin.go) *)

Module Darwin.

Definition macLetterKeyCode (ch : ascii) : Z * bool :=
  match ch with
  | "A"%char => (0%Z, true)
  | "B"%char => (11%Z, true)
  | "C"%char => (8%Z, true)
  | "D"%char => (2%Z, true)
  | "E"%char => (14%Z, true)
  | "F"%char => (3%Z, true)
  | "G"%char => (5%Z, true)
  | "H"%char => (4%Z, true)
  | "I"%char => (34%Z, true)
  | "J"%char => (38%Z, true)
  | "K"%char => (40%Z, true)
  | "L"%char => (37%Z, true)
  | "M"%char => (46%Z, true)
  | "N"%char => (45%Z, true)
  | "O"%char => (31%Z, true)
  | "P"%char => (35%Z, true)
  | "Q"%char => (12%Z, true)
  | "R"%char => (15%Z, true)
  | "S"%char => (1%Z, true)
  | "T"%char => (17%Z, true)
  | "U"%char => (32%Z, true)
  | "V"%char => (9%Z, true)
  | "W"%char => (13%Z, true)
  | "X"%char => (7%Z, true)
  | "Y"%char => (16%Z, true)
  | "Z"%char => (6%Z, true)
  | _ => (0%Z, false)
  end.

Definition macDigitKeyCode (ch : ascii) : Z * bool :=
  match ch with
  | "0"%char => (29%Z, true)
  | "1"%char => (18%Z, true)
  | "2"%char => (19%Z, true)
  | "3"%char => (20%Z, true)
  | "4"%char => (21%Z, true)
  | "5"%char => (23%Z, true)
  | "6"%char => (22%Z, true)
  | "7"%char => (26%Z, true)
  | "8"%char => (28%Z, true)
  | "9"%char => (25%Z, true)
  | _ => (0%Z, false)
  end.

Definition macFunctionKeyCode (key : string) : Z * option error :=
  if key =? "F1" then (122%Z, None)
  else if key =? "F2" then (120%Z, None)
  else if key =? "F3" then (99%Z, None)
  else if key =? "F4" then (118%Z, None)
  else if key =? "F5" then (96%Z, None)
  else if key =? "F6" then (97%Z, None)
  else if key =? "F7" then (98%Z, None)
  else if key =? "F8" then (100%Z, None)
  else if key =? "F9" then (101%Z, None)
  else if key =? "F10" then (109%Z, None)
  else if key =? "F11" then (103%Z, None)
  else if key =? "F12" then (111%Z, None)
  else (0%Z, Some ("unsupported key: " ++ key)).

(** The final [switch key] of [parseMacInput]. *)
Definition namedKey (key input : string) : KeyTask * option error :=
  if key =? "SPACE" then (KeyTask_code 49, None)
  else if key =? "ENTER" then (KeyTask_code 36, None)
  else if (key =? "ESC") || (key =? "ESCAPE") then (KeyTask_code 53, None)
  else if key =? "TAB" then (KeyTask_code 48, None)
  else if key =? "UP" then (KeyTask_code 126, None)
  else if key =? "DOWN" then (KeyTask_code 125, None)
  else if key =? "LEFT" then (KeyTask_code 123, None)
  else if key =? "RIGHT" then (KeyTask_code 124, None)
  else if existsb (String.eqb key) functionKeys then
    match macFunctionKeyCode key with
    | (_, Some err) => (KeyTask_zero, Some err)
    | (code, None) => (KeyTask_code code, None)
    end
  else (KeyTask_zero, Some ("unsupported key: " ++ input)).

(** The block guarded by [len(key) == 1]; [None] when it falls through. *)
Definition letterOrDigit (key : string) : option KeyTask :=
  if (String.length key =? 1)%nat then
    let ch := byte0 key in
    let '(code, ok) := macLetterKeyCode ch in
    if ok then Some (KeyTask_code code) else
    let '(code, ok) := macDigitKeyCode ch in
    if ok then Some (KeyTask_code code) else None
  else None.

Definition parseMacInput `{CaseTable} (input : string) : KeyTask * option error :=
  let key := strings.ToUpper (strings.TrimSpace input) in
  if key =? "" then (KeyTask_zero, Some "empty key") else
  let runes := runes_of (strings.TrimSpace input) in
  if (List.length runes =? 1)%nat then (KeyTask_unicode (rune0 runes), None) else
  match letterOrDigit key with
  | Some task => (task, None)
  | None => namedKey key input
  end.

End Darwin.

(** ** Key resolution on Windows *)

(** The virtual-key constants of package [keybd_event] that the Windows file
    names.  Their values belong to that package; the resolution below does
    not depend on them. *)
Class keybd_event := {
  VK_A : Z;
  VK_B : Z;
  VK_C : Z;
  VK_D : Z;
  VK_E : Z;
  VK_F : Z;
  VK_G : Z;
  VK_H : Z;
  VK_I : Z;
  VK_J : Z;
  VK_K : Z;
  VK_L : Z;
  VK_M : Z;
  VK_N : Z;
  VK_O : Z;
  VK_P : Z;
  VK_Q : Z;
  VK_R : Z;
  VK_S : Z;
  VK_T : Z;
  VK_U : Z;
  VK_V : Z;
  VK_W : Z;
  VK_X : Z;
  VK_Y : Z;
  VK_Z : Z;
  VK_0 : Z;
  VK_1 : Z;
  VK_2 : Z;
  VK_3 : Z;
  VK_4 : Z;
  VK_5 : Z;
  VK_6 : Z;
  VK_7 : Z;
  VK_8 : Z;
  VK_9 : Z;
  VK_SPACE : Z;
  VK_ENTER : Z;
  VK_ESC : Z;
  VK_TAB : Z;
  VK_UP : Z;
  VK_DOWN : Z;
  VK_LEFT : Z;
  VK_RIGHT : Z;
  VK_F1 : Z;
  VK_F2 : Z;
  VK_F3 : Z;
  VK_F4 : Z;
  VK_F5 : Z;
  VK_F6 : Z;
  VK_F7 : Z;
  VK_F8 : Z;
  VK_F9 : Z;
  VK_F10 : Z;
  VK_F11 : Z;
  VK_F12 : Z
}.

Module Windows.
Section WithKeys.
Context `{keybd_event}.

(** The [switch key[0]] guarded by [len(key) == 1]; [None] when no case
    applies and control falls through to the named keys. *)
Definition letterOrDigit (key : string) : option KeyTask :=
  if (String.length key =? 1)%nat then
    match byte0 key with
    | "A"%char => Some (KeyTask_code VK_A)
    | "B"%char => Some (KeyTask_code VK_B)
    | "C"%char => Some (KeyTask_code VK_C)
    | "D"%char => Some (KeyTask_code VK_D)
    | "E"%char => Some (KeyTask_code VK_E)
    | "F"%char => Some (KeyTask_code VK_F)
    | "G"%char => Some (KeyTask_code VK_G)
    | "H"%char => Some (KeyTask_code VK_H)
    | "I"%char => Some (KeyTask_code VK_I)
    | "J"%char => Some (KeyTask_code VK_J)
    | "K"%char => Some (KeyTask_code VK_K)
    | "L"%char => Some (KeyTask_code VK_L)
    | "M"%char => Some (KeyTask_code VK_M)
    | "N"%char => Some (KeyTask_code VK_N)
    | "O"%char => Some (KeyTask_code VK_O)
    | "P"%char => Some (KeyTask_code VK_P)
    | "Q"%char => Some (KeyTask_code VK_Q)
    | "R"%char => Some (KeyTask_code VK_R)
    | "S"%char => Some (KeyTask_code VK_S)
    | "T"%char => Some (KeyTask_code VK_T)
    | "U"%char => Some (KeyTask_code VK_U)
    | "V"%char => Some (KeyTask_code VK_V)
    | "W"%char => Some (KeyTask_code VK_W)
    | "X"%char => Some (KeyTask_code VK_X)
    | "Y"%char => Some (KeyTask_code VK_Y)
    | "Z"%char => Some (KeyTask_code VK_Z)
    | "0"%char => Some (KeyTask_code VK_0)
    | "1"%char => Some (KeyTask_code VK_1)
    | "2"%char => Some (KeyTask_code VK_2)
    | "3"%char => Some (KeyTask_code VK_3)
    | "4"%char => Some (KeyTask_code VK_4)
    | "5"%char => Some (KeyTask_code VK_5)
    | "6"%char => Some (KeyTask_code VK_6)
    | "7"%char => Some (KeyTask_code VK_7)
    | "8"%char => Some (KeyTask_code VK_8)
    | "9"%char => Some (KeyTask_code VK_9)
    | _ => None
    end
  else None.

(** The final [switch key] of [parseKeyInput]. *)
Definition namedKey (key input : string) : KeyTask * option error :=
  if key =? "SPACE" then (KeyTask_code VK_SPACE, None)
  else if key =? "ENTER" then (KeyTask_code VK_ENTER, None)
  else if (key =? "ESC") || (key =? "ESCAPE") then (KeyTask_code VK_ESC, None)
  else if key =? "TAB" then (KeyTask_code VK_TAB, None)
  else if key =? "UP" then (KeyTask_code VK_UP, None)
  else if key =? "DOWN" then (KeyTask_code VK_DOWN, None)
  else if key =? "LEFT" then (KeyTask_code VK_LEFT, None)
  else if key =? "RIGHT" then (KeyTask_code VK_RIGHT, None)
  else if key =? "F1" then (KeyTask_code VK_F1, None)
  else if key =? "F2" then (KeyTask_code VK_F2, None)
  else if key =? "F3" then (KeyTask_code VK_F3, None)
  else if key =? "F4" then (KeyTask_code VK_F4, None)
  else if key =? "F5" then (KeyTask_code VK_F5, None)
  else if key =? "F6" then (KeyTask_code VK_F6, None)
  else if key =? "F7" then (KeyTask_code VK_F7, None)
  else if key =? "F8" then (KeyTask_code VK_F8, None)
  else if key =? "F9" then (KeyTask_code VK_F9, None)
  else if key =? "F10" then (KeyTask_code VK_F10, None)
  else if key =? "F11" then (KeyTask_code VK_F11, None)
  else if key =? "F12" then (KeyTask_code VK_F12, None)
  else (KeyTask_zero, Some ("unsupported key: " ++ input)).

Definition parseKeyInput `{CaseTable} (input : string) : KeyTask * option error :=
  let key := strings.ToUpper (strings.TrimSpace input) in
  if key =? "" then (KeyTask_zero, Some "empty key") else
  let runes := runes_of (strings.TrimSpace input) in
  if (List.length runes =? 1)%nat then (KeyTask_unicode (rune0 runes), None) else
  match letterOrDigit key with
  | Some task => (task, None)
  | None => namedKey key input
  end.

End WithKeys.
End Windows.

(** ** The Runner (the same code in both platform files, except [runTask])

    The Runner is called from the user-interface thread only (the Start and
    Stop buttons), which runs one call of [Start] or [Stop] at a time; the
    executors are the goroutines running [runTask].  The sections of [Start]
    and [Stop] that hold [r.mu] are single steps of the caller.  Time is left
    out: a ticker may deliver a tick at any moment. *)

Inductive Chan : Type :=
| ChanNil       (* the zero value of [stopCh] *)
| ChanOpen      (* made by [make(chan struct{})] *)
| ChanClosed.   (* after [close] *)

Record Runner := {
  stopCh : Chan;
  wg : Z;          (* the counter of the WaitGroup *)
  running : bool
}.

(** Where the goroutine of one [runTask] call is. *)
Inductive Phase : Type :=
| Launched      (* started by [go r.runTask(task)], the ticker not yet made *)
| Selecting     (* in the [for { select {...} }] loop *)
| Exited.       (* returned; the deferred [wg.Done()] has run *)

Record Executor := {
  task : KeyTask;
  phase : Phase
}.

(** A call of the key injector made by an executor. *)
Inductive Injection : Type :=
| PressKeyCode (code : Z)      (* [keyTap], [kb.Launching] *)
| InjectUnicode (r : rune).    (* [keyTapUnicode], [sendUnicode] *)

(** Where the user-interface thread is with respect to the Runner. *)
Inductive Caller : Type :=
| Ready                              (* in no call *)
| Spawning (rest : list KeyTask)     (* in the [for] loop of [Start] *)
| Waiting.                           (* in [r.wg.Wait()] of [Stop] *)

Record System := {
  runner : Runner;
  caller : Caller;
  executors : list Executor;            (* every goroutine launched so far *)
  injected : list (nat * Injection)     (* the injections made, oldest first *)
}.

Definition initial : System := {|
  runner := {| stopCh := ChanNil; wg := 0; running := false |};
  caller := Ready;
  executors := [];
  injected := []
|}.

Inductive Platform : Type := MacOS | MSWindows.

Inductive Outcome : Type :=
| Next (s : System)
| Blocked          (* the step cannot be taken in this state *)
| Panic.           (* a run-time panic ends the program *)

Definition with_caller (c : Caller) (s : System) : System :=
  {| runner := runner s; caller := c;
     executors := executors s; injected := injected s |}.

Definition with_runner (r : Runner) (s : System) : System :=
  {| runner := r; caller := caller s;
     executors := executors s; injected := injected s |}.

(** [r.running] read under the mutex. *)
Definition IsRunning (s : System) : bool := running (runner s).

(** [Start], from [r.mu.Lock()] to [r.mu.Unlock()]: nothing happens when the
    Runner is running; otherwise the flag is set, a new channel is made and
    the caller goes on to the loop over [tasks]. *)
Definition Start_locked (tasks : list KeyTask) (s : System) : System :=
  if running (runner s) then s
  else
    with_caller (Spawning tasks)
      (with_runner {| stopCh := ChanOpen; wg := wg (runner s); running := true |} s).

(** One round of the loop of [Start]: [r.wg.Add(1); go r.runTask(task)]. *)
Definition Start_spawn (t : KeyTask) (rest : list KeyTask) (s : System) : System :=
  {| runner := {| stopCh := stopCh (runner s);
                  wg := (wg (runner s) + 1)%Z;
                  running := running (runner s) |};
     caller := Spawning rest;
     executors := executors s ++ [{| task := t; phase := Launched |}];
     injected := injected s |}.

(** [Stop], from [r.mu.Lock()] to [r.mu.Unlock()]: nothing happens when the
    Runner is idle; otherwise the channel is closed ([close] panics on a nil
    or closed channel), the flag is cleared and the caller goes on to wait. *)
Definition Stop_locked (s : System) : Outcome :=
  if negb (running (runner s)) then Next s
  else
    match stopCh (runner s) with
    | ChanOpen =>
      Next (with_caller Waiting
              (with_runner {| stopCh := ChanClosed; wg := wg (runner s);
                              running := false |} s))
    | ChanNil | ChanClosed => Panic
    end.

(** [r.wg.Wait()] returns when the counter is zero. *)
Definition Stop_wait (s : System) : Outcome :=
  if (wg (runner s) =? 0)%Z then Next (with_caller Ready s) else Blocked.

(** The branch of [runTask] on a tick. *)
Definition injection (t : KeyTask) : Injection :=
  if UseUnicode t then InjectUnicode (UnicodeRune t) else PressKeyCode (KeyCode t).

(** Executor [i] moves to phase [ph]. *)
Definition set_phase (i : nat) (e : Executor) (ph : Phase) (s : System) : System :=
  {| runner := runner s; caller := caller s;
     executors := <[i := {| task := task e; phase := ph |}]> (executors s);
     injected := injected s |}.

(** Executor [i] returns: the deferred [r.wg.Done()] runs (a negative counter
    panics). *)
Definition exit (i : nat) (e : Executor) (s : System) : Outcome :=
  if (wg (runner s) - 1 <? 0)%Z then Panic
  else
    Next (with_runner {| stopCh := stopCh (runner s);
                         wg := (wg (runner s) - 1)%Z;
                         running := running (runner s) |}
            (set_phase i e Exited s)).

(** [runTask] up to the loop: on Windows a task with a key code first makes
    its key bonding; then [time.NewTicker(task.Interval)], which panics on a
    non-positive interval. *)
Definition runTask_setup (i : nat) (e : Executor) (s : System) : Outcome :=
  if (0 <? Interval (task e))%Z then Next (set_phase i e Selecting s) else Panic.

(** On Windows, [keybd_event.NewKeyBonding] returned an error: [runTask]
    returns at once.  The macOS [runTask] has no such exit. *)
Definition runTask_bonding_failed (p : Platform) (i : nat) (e : Executor)
    (s : System) : Outcome :=
  match p with
  | MSWindows => if UseUnicode (task e) then Blocked else exit i e s
  | MacOS => Blocked
  end.

(** [case <-ticker.C]: one injection, and the loop goes on. *)
Definition runTask_tick (i : nat) (e : Executor) (s : System) : System :=
  {| runner := runner s; caller := caller s; executors := executors s;
     injected := injected s ++ [(i, injection (task e))] |}.

(** [case <-r.stopCh: return]: possible once the channel is closed (a
    receive from a nil or an open, empty channel blocks).  The field
    [r.stopCh] is read anew at every round of the loop. *)
Definition runTask_cancel (i : nat) (e : Executor) (s : System) : Outcome :=
  match stopCh (runner s) with
  | ChanClosed => exit i e s
  | ChanNil | ChanOpen => Blocked
  end.

(** The steps of the system: those of the caller and, for the executor
    numbered [i], those of its [runTask]. *)
Inductive Label : Type :=
| CallStart (tasks : list KeyTask)
| Spawn
| ReturnStart
| CallStop
| ReturnStop
| Setup (i : nat)
| BondingFailed (i : nat)
| Tick (i : nat)
| Cancel (i : nat).

Definition in_phase (ph : Phase) (i : nat) (s : System)
    (k : Executor -> Outcome) : Outcome :=
  match executors s !! i with
  | Some e =>
    match phase e, ph with
    | Launched, Launched | Selecting, Selecting => k e
    | _, _ => Blocked
    end
  | None => Blocked
  end.

Definition step (p : Platform) (l : Label) (s : System) : Outcome :=
  match l with
  | CallStart tasks =>
    match caller s with
    | Ready => Next (Start_locked tasks s)
    | _ => Blocked
    end
  | Spawn =>
    match caller s with
    | Spawning (t :: rest) => Next (Start_spawn t rest s)
    | _ => Blocked
    end
  | ReturnStart =>
    match caller s with
    | Spawning [] => Next (with_caller Ready s)
    | _ => Blocked
    end
  | CallStop =>
    match caller s with
    | Ready => Stop_locked s
    | _ => Blocked
    end
  | ReturnStop =>
    match caller s with
    | Waiting => Stop_wait s
    | _ => Blocked
    end
  | Setup i => in_phase Launched i s (fun e => runTask_setup i e s)
  | BondingFailed i => in_phase Launched i s (fun e => runTask_bonding_failed p i e s)
  | Tick i => in_phase Selecting i s (fun e => Next (runTask_tick i e s))
  | Cancel i => in_phase Selecting i s (fun e => runTask_cancel i e s)
  end.

(** A run: the steps of a trace taken one after the other. *)
Fixpoint run (p : Platform) (trace : list Label) (s : System) : option System :=
  match trace with
  | [] => Some s
  | l :: rest =>
    match step p l s with
    | Next s' => run p rest s'
    | Blocked | Panic => None
    end
  end.

(** A call of [Start] that is not interleaved with steps of executors. *)
Definition startTrace (tasks : list KeyTask) : list Label :=
  CallStart tasks :: repeat Spawn (List.length tasks) ++ [ReturnStart].

Definition alive (e : Executor) : bool :=
  match phase e with
  | Exited => false
  | Launched | Selecting => true
  end.

(** The number of goroutines that have not returned. *)
Fixpoint aliveCount (l : list Executor) : Z :=
  match l with
  | [] => 0%Z
  | e :: rest => ((if alive e then 1 else 0) + aliveCount rest)%Z
  end.

Definition allExited (s : System) : Prop :=
  Forall (fun e => phase e = Exited) (executors s).

(** Executor [i] has returned. *)
Definition exitedAt (s : System) (i : nat) : Prop :=
  exists e, executors s !! i = Some e /\ phase e = Exited.

(** What holds of the Runner in every state of every run. *)
Record consistent (s : System) : Prop := {
  flag_channel : running (runner s) = true <-> stopCh (runner s) = ChanOpen;
  counter_alive : wg (runner s) = aliveCount (executors s);
  idle_joined :
    caller s = Ready -> running (runner s) = false ->
    aliveCount (executors s) = 0%Z;
  spawning_running :
    forall rest, caller s = Spawning rest -> running (runner s) = true;
  waiting_stopped : caller s = Waiting -> running (runner s) = false
}.

(** The steps an executor can take, whatever label produced them: the
    ticker is made, the goroutine returns, or a tick is served. *)
Inductive executor_step (p : Platform) (i : nat) (s s' : System) : Prop :=
| es_setup e :
    executors s !! i = Some e -> phase e = Launched ->
    s' = set_phase i e Selecting s ->
    executor_step p i s s'
| es_exit e :
    executors s !! i = Some e -> phase e <> Exited ->
    s' = with_runner {| stopCh := stopCh (runner s);
                        wg := (wg (runner s) - 1)%Z;
                        running := running (runner s) |}
           (set_phase i e Exited s) ->
    executor_step p i s s'
| es_tick e :
    executors s !! i = Some e -> phase e = Selecting ->
    s' = runTask_tick i e s ->
    executor_step p i s s'.

(** The reading of the state invariant under which the flag is set exactly
    when some executor is alive and the channel is open. *)
Definition runningIffAlive (s : System) : Prop :=
  IsRunning s = true <->
  (0 < aliveCount (executors s))%Z /\ stopCh (runner s) = ChanOpen.

(** ** The Start button (the [OnClicked] callbacks of [main]) *)

(** [int64] arithmetic wraps around. *)
Definition int64 (z : Z) : Z := ((z + 2 ^ 63) mod 2 ^ 64 - 2 ^ 63)%Z.

(** [time.Millisecond], in nanoseconds. *)
Definition Millisecond : Z := 1000000%Z.

(** The task appended for an entry:
    [KeyTask{KeyCode: task.KeyCode, UnicodeRune: task.UnicodeRune,
    UseUnicode: task.UseUnicode,
    Interval: time.Duration(entry.IntervalMS) * time.Millisecond}]. *)
Definition taskFor (t : KeyTask) (entry : KeyEntry) : KeyTask :=
  {| KeyCode := KeyCode t;
     UnicodeRune := UnicodeRune t;
     UseUnicode := UseUnicode t;
     Interval := int64 (IntervalMS entry * Millisecond) |}.

(** A message box or information dialog shown to the user. *)
Record Dialog := {
  title : string;
  message : string
}.

(** What a click on Start does: the dialogs it shows and, when it gets that
    far, the argument of its call [runner.Start(tasks)]. *)
Record Clicked := {
  dialogs : list Dialog;
  started : option (list KeyTask)
}.

Definition newline : string := String "010"%char EmptyString.

Definition noValidKey : string :=
  "Add at least one enabled key with a positive interval.".

Module DarwinMain.
Section WithTable.
Context `{CaseTable}.

(** One round of [for _, entry := range entries]. *)
Definition loop_body (acc : list KeyTask * list string) (entry : KeyEntry)
    : list KeyTask * list string :=
  let '(tasks, errors) := acc in
  if negb (Enabled entry) || (IntervalMS entry <=? 0)%Z
     || (strings.TrimSpace (Key entry) =? "")
  then acc
  else
    match Darwin.parseMacInput (Key entry) with
    | (_, Some err) => (tasks, (errors ++ [err])%list)
    | (t, None) => ((tasks ++ [taskFor t entry])%list, errors)
    end.

Definition startButton_OnClicked (isRunning : bool) (entries : list KeyEntry)
    : Clicked :=
  if isRunning then {| dialogs := []; started := None |} else
  let '(tasks, errors) := fold_left loop_body entries ([], []) in
  if (List.length tasks =? 0)%nat then
    {| dialogs :=
         {| title := "Start"; message := noValidKey |}
         :: (if (0 <? List.length errors)%nat
             then [{| title := "Key errors";
                      message := strings.Join errors newline |}]
             else []);
       started := None |}
  else
    {| dialogs :=
         (if (0 <? List.length errors)%nat
          then [{| title := "Some keys were skipped";
                   message := strings.Join errors newline |}]
          else []);
       started := Some tasks |}.

End WithTable.
End DarwinMain.

Module WindowsMain.
Section WithTables.
Context `{CaseTable} `{keybd_event}.

(** [KeyTableModel.EnabledEntries]. *)
Definition EnabledEntries (items : list KeyEntry) : list KeyEntry :=
  fold_left
    (fun entries entry =>
       if Enabled entry && (0 <? IntervalMS entry)%Z
          && negb (strings.TrimSpace (Key entry) =? "")
       then (entries ++ [entry])%list else entries)
    items [].

(** One round of [for _, entry := range entries]. *)
Definition loop_body (acc : list KeyTask * list string) (entry : KeyEntry)
    : list KeyTask * list string :=
  let '(tasks, errors) := acc in
  match Windows.parseKeyInput (Key entry) with
  | (_, Some err) => (tasks, (errors ++ [err])%list)
  | (t, None) => ((tasks ++ [taskFor t entry])%list, errors)
  end.

Definition startButton_OnClicked (isRunning : bool) (items : list KeyEntry)
    : Clicked :=
  if isRunning then {| dialogs := []; started := None |} else
  let entries := EnabledEntries items in
  if (List.length entries =? 0)%nat then
    {| dialogs := [{| title := "Start"; message := noValidKey |}];
       started := None |}
  else
  let '(tasks, errors) := fold_left loop_body entries ([], []) in
  if (List.length tasks =? 0)%nat then
    {| dialogs := [{| title := "Start";
                      message := strings.Join errors newline |}];
       started := None |}
  else
    {| dialogs :=
         (if (0 <? List.length errors)%nat
          then [{| title := "Some keys were skipped";
                   message := strings.Join errors newline |}]
          else []);
       started := Some tasks |}.

End WithTables.
End WindowsMain.

(** ** Vocabulary of the properties *)

(** An input is blank when it is empty or made of white space only. *)
Definition blank (s : string) : bool := forallb unicode.IsSpace (runes_of s).

(** A decoded chunk holds at least one byte; a chunk of white space. *)
Definition chunk_ok (c : rune * string) : Prop :=
  (1 <= String.length (snd c))%nat.

Definition spaceChunk (c : rune * string) : bool := unicode.IsSpace (fst c).

(** Two strings are equal up to case when their upper-case forms coincide. *)
Definition equalIgnoreCase `{CaseTable} (s t : string) : Prop :=
  strings.ToUpper s = strings.ToUpper t.

(** The trimmed input has more than one character. *)
Definition multiCharacter (input : string) : Prop :=
  (1 < List.length (runes_of (strings.TrimSpace input)))%nat.

(** An entry takes part in a run when it is enabled, has a positive interval
    and a key that is not blank. *)
Definition usable (entry : KeyEntry) : bool :=
  Enabled entry && (0 <? IntervalMS entry)%Z && negb (blank (Key entry)).

(** The tasks of the usable entries that resolve, and the messages of those
    that do not, each in the order of the entries. *)
Definition resolvedTasks (resolve : string -> KeyTask * option error)
    (entries : list KeyEntry) : list KeyTask :=
  flat_map
    (fun entry =>
       if usable entry then
         match resolve (Key entry) with
         | (t, None) => [taskFor t entry]
         | (_, Some _) => []
         end
       else [])
    entries.

Definition resolutionErrors (resolve : string -> KeyTask * option error)
    (entries : list KeyEntry) : list string :=
  flat_map
    (fun entry =>
       if usable entry then
         match resolve (Key entry) with
         | (_, None) => []
         | (_, Some err) => [err]
         end
       else [])
    entries.

(** The executors a call of [Start] launches for a list of tasks. *)
Definition launched (tasks : list KeyTask) : list Executor :=
  map (fun t => {| task := t; phase := Launched |}) tasks.

(** What a click on Start has to do with a list of entries: call
    [runner.Start] with the resolved tasks when there are any and not at all
    otherwise, and show the resolution errors when there are any. *)
Definition startsAndReports (resolve : string -> KeyTask * option error)
    (entries : list KeyEntry) (c : Clicked) : Prop :=
  started c =
    match resolvedTasks resolve entries with
    | [] => None
    | _ :: _ => Some (resolvedTasks resolve entries)
    end /\
  match resolutionErrors resolve entries with
  | [] => True
  | _ :: _ =>
    exists d, In d (dialogs c) /\
      message d = strings.Join (resolutionErrors resolve entries) newline
  end.

(** A task and two runs used to exercise the statements. *)
Definition sampleTask : KeyTask :=
  {| KeyCode := 0; UnicodeRune := 97%N; UseUnicode := true;
     Interval := 100000000 |}.

Definition sampleStopping : list Label :=
  [CallStart [sampleTask]; Spawn; ReturnStart; Setup 0; Tick 0; CallStop].

Definition sampleStopped : list Label :=
  sampleStopping ++ [Cancel 0; ReturnStop].

Definition sampleEntries : list KeyEntry :=
  [{| Key := "A"; IntervalMS := 1000; Enabled := true |};
   {| Key := "foo"; IntervalMS := 10; Enabled := true |};
   {| Key := " f5 "; IntervalMS := 250; Enabled := true |};
   {| Key := "esc"; IntervalMS := 10; Enabled := false |};
   {| Key := " "; IntervalMS := 10; Enabled := true |};
   {| Key := "tab"; IntervalMS := 0; Enabled := true |}].

(** The names of the named keys. *)
Definition namedKeys : list string :=
  ["SPACE"; "ENTER"; "ESC"; "ESCAPE"; "TAB"; "UP"; "DOWN"; "LEFT"; "RIGHT"]
  ++ functionKeys.

(** The code each named key stands for, read off the cases of the final
    switch of each resolver. *)
Definition macNamedKeyCodes : list (string * Z) :=
    [("SPACE", 49%Z); ("ENTER", 36%Z); ("ESC", 53%Z); ("ESCAPE", 53%Z);
     ("TAB", 48%Z); ("UP", 126%Z); ("DOWN", 125%Z); ("LEFT", 123%Z);
     ("RIGHT", 124%Z); ("F1", 122%Z); ("F2", 120%Z); ("F3", 99%Z);
     ("F4", 118%Z); ("F5", 96%Z); ("F6", 97%Z); ("F7", 98%Z); ("F8", 100%Z);
     ("F9", 101%Z); ("F10", 109%Z); ("F11", 103%Z); ("F12", 111%Z)].

Definition winNamedKeyCodes `{keybd_event} : list (string * Z) :=
    [("SPACE", VK_SPACE); ("ENTER", VK_ENTER); ("ESC", VK_ESC);
     ("ESCAPE", VK_ESC); ("TAB", VK_TAB); ("UP", VK_UP); ("DOWN", VK_DOWN);
     ("LEFT", VK_LEFT); ("RIGHT", VK_RIGHT); ("F1", VK_F1); ("F2", VK_F2);
     ("F3", VK_F3); ("F4", VK_F4); ("F5", VK_F5); ("F6", VK_F6);
     ("F7", VK_F7); ("F8", VK_F8); ("F9", VK_F9); ("F10", VK_F10);
     ("F11", VK_F11); ("F12", VK_F12)].

(** Lookup in a table of named keys. *)
Fixpoint codeOf (table : list (string * Z)) (name : string) : option Z :=
  match table with
  | [] => None
  | (n, code) :: rest => if name =? n then Some code else codeOf rest name
  end.

(** Resolution with the letter and digit block left out: rule 1 (a single
    character), the named keys, and failure. *)
Definition resolveWithoutLetters `{CaseTable}
    (named : string -> string -> KeyTask * option error) (input : string)
    : KeyTask * option error :=
  let key := strings.ToUpper (strings.TrimSpace input) in
  if key =? "" then (KeyTask_zero, Some "empty key") else
  let runes := runes_of (strings.TrimSpace input) in
  if (List.length runes =? 1)%nat then (KeyTask_unicode (rune0 runes), None)
  else named key input.

(** ** Tables to run the definitions on examples *)

(** A case table without entries: no rune above ASCII changes. *)
Definition plainCaseTable : CaseTable := {| toUpperCase := fun r => r |}.

(** One assignment of the Windows key constants. *)
Definition sampleKeys : keybd_event := {|
  VK_A := 30;
  VK_B := 48;
  VK_C := 46;
  VK_D := 32;
  VK_E := 18;
  VK_F := 33;
  VK_G := 34;
  VK_H := 35;
  VK_I := 23;
  VK_J := 36;
  VK_K := 37;
  VK_L := 38;
  VK_M := 50;
  VK_N := 49;
  VK_O := 24;
  VK_P := 25;
  VK_Q := 16;
  VK_R := 19;
  VK_S := 31;
  VK_T := 20;
  VK_U := 22;
  VK_V := 47;
  VK_W := 17;
  VK_X := 45;
  VK_Y := 21;
  VK_Z := 44;
  VK_0 := 11;
  VK_1 := 2;
  VK_2 := 3;
  VK_3 := 4;
  VK_4 := 5;
  VK_5 := 6;
  VK_6 := 7;
  VK_7 := 8;
  VK_8 := 9;
  VK_9 := 10;
  VK_SPACE := 57;
  VK_ENTER := 28;
  VK_ESC := 1;
  VK_TAB := 15;
  VK_UP := 4133;
  VK_DOWN := 4135;
  VK_LEFT := 4132;
  VK_RIGHT := 4134;
  VK_F1 := 59;
  VK_F2 := 60;
  VK_F3 := 61;
  VK_F4 := 62;
  VK_F5 := 63;
  VK_F6 := 64;
  VK_F7 := 65;
  VK_F8 := 66;
  VK_F9 := 67;
  VK_F10 := 68;
  VK_F11 := 87;
  VK_F12 := 88
|}.


(** ** Vocabulary of the further properties *)

(** Every byte. *)
Definition all_bytes : list ascii := map ascii_of_nat (seq 0 256).

(** A byte is an upper-case ASCII letter or an ASCII digit. *)
Definition isUpperOrDigit (c : ascii) : bool :=
  ((0x41 <=? byte_val c)%N && (byte_val c <=? 0x5A)%N)
  || ((0x30 <=? byte_val c)%N && (byte_val c <=? 0x39)%N).

(** The one-byte string made of [c]. *)
Definition oneByte (c : ascii) : string := String c EmptyString.

(** The key code the macOS tables give for a byte: [macLetterKeyCode] first,
    then [macDigitKeyCode], as the resolver consults them. *)
Definition macByteCode (c : ascii) : option Z :=
  let '(code, ok) := Darwin.macLetterKeyCode c in
  if ok then Some code else
  let '(code, ok) := Darwin.macDigitKeyCode c in
  if ok then Some code else None.

(** Checks run over all bytes: the tables answer exactly for the letters and
    digits, two bytes with one code are the same byte, and no code of a named
    key is the code of a byte. *)
Definition tableDomain (c : ascii) : bool :=
  Bool.eqb (isUpperOrDigit c)
    (match macByteCode c with Some _ => true | None => false end).

Definition sameCodeSameByte (c1 c2 : ascii) : bool :=
  match macByteCode c1, macByteCode c2 with
  | Some k1, Some k2 => negb (k1 =? k2)%Z || Ascii.eqb c1 c2
  | _, _ => true
  end.

Definition noNamedCode (c : ascii) : bool :=
  match macByteCode c with
  | Some k => forallb (fun e => negb (snd e =? k)%Z) macNamedKeyCodes
  | None => true
  end.

(** ESC and ESCAPE name the same key. *)
Definition sameKeyName (k1 k2 : string) : Prop :=
  k1 = k2 \/ (In k1 ["ESC"; "ESCAPE"] /\ In k2 ["ESC"; "ESCAPE"]).

(** The tasks a label hands to the Runner have positive intervals. *)
Definition positiveInterval (t : KeyTask) : Prop := (0 < Interval t)%Z.

Definition positiveLabel (l : Label) : Prop :=
  match l with
  | CallStart tasks => Forall positiveInterval tasks
  | _ => True
  end.

(** The largest interval in milliseconds that fits a [time.Duration]. *)
Definition maxIntervalMS : Z := 9223372036854%Z.

(** The steps that let the executors numbered from [k] on, in the phases of
    [l], observe the closed channel and return, one after the other. *)
Fixpoint drain (k : nat) (l : list Executor) : list Label :=
  match l with
  | [] => []
  | e :: rest =>
    match phase e with
    | Launched => [Setup k; Cancel k]
    | Selecting => [Cancel k]
    | Exited => []
    end ++ drain (S k) rest
  end.

(** The executors of [l], all returned. *)
Definition returned (l : list Executor) : list Executor :=
  map (fun e => {| task := task e; phase := Exited |}) l.

(** What a step does to the caller, the executors and the log. *)
Inductive step_shape (l : Label) (s s' : System) : Prop :=
| shape_caller :
    executors s' = executors s -> injected s' = injected s ->
    (forall rest, caller s' = Spawning rest ->
       caller s = Spawning rest \/ l = CallStart rest \/
       exists t, caller s = Spawning (t :: rest)) ->
    step_shape l s s'
| shape_spawn t rest :
    l = Spawn -> caller s = Spawning (t :: rest) -> caller s' = Spawning rest ->
    executors s' = (executors s ++ [{| task := t; phase := Launched |}])%list ->
    injected s' = injected s ->
    step_shape l s s'
| shape_phase i e ph :
    executors s !! i = Some e -> caller s' = caller s ->
    executors s' = <[i := {| task := task e; phase := ph |}]> (executors s) ->
    injected s' = injected s ->
    step_shape l s s'
| shape_tick i e :
    executors s !! i = Some e -> phase e = Selecting -> caller s' = caller s ->
    executors s' = executors s ->
    injected s' = (injected s ++ [(i, injection (task e))])%list ->
    step_shape l s s'.

(** ** The rows of the window *)

(** The notifications [KeyTableModel] publishes to its view. *)
Inductive RowsEvent : Type :=
| RowsInserted (first last : Z)
| RowsRemoved (first last : Z).

(** The Windows table model: [m.items] before and after, with the
    notification published. *)
Module KeyTableModel.

Definition RowCount (items : list KeyEntry) : Z := Z.of_nat (List.length items).

Definition Add (entry : KeyEntry) (items : list KeyEntry)
    : list KeyEntry * option RowsEvent :=
  let items' := (items ++ [entry])%list in
  (items', Some (RowsInserted (RowCount items' - 1) (RowCount items' - 1))).

(** [append(m.items[:index], m.items[index+1:]...)] behind the bounds
    test. *)
Definition Remove (index : Z) (items : list KeyEntry)
    : list KeyEntry * option RowsEvent :=
  if (index <? 0)%Z || (RowCount items <=? index)%Z then (items, None)
  else
    ((take (Z.to_nat index) items ++ drop (Z.to_nat (index + 1)) items)%list,
     Some (RowsRemoved index index)).

End KeyTableModel.

(** The Remove button of the macOS window: the rows and the selected index
    after the click, with the dialog shown when no row is selected. *)
Definition removeButton_OnTapped (selectedIndex : Z) (entries : list KeyEntry)
    : list KeyEntry * Z * list Dialog :=
  if (selectedIndex <? 0)%Z || (Z.of_nat (List.length entries) <=? selectedIndex)%Z
  then (entries, selectedIndex,
        [{| title := "Remove"; message := "Select a row to remove." |}])
  else
    ((take (Z.to_nat selectedIndex) entries
      ++ drop (Z.to_nat (selectedIndex + 1)) entries)%list,
     (-1)%Z, []).

(** The Remove button of the Windows window, on the current index of the
    table view. *)
Definition removeButton_OnClicked (index : Z) (items : list KeyEntry)
    : list KeyEntry * list Dialog :=
  if (index <? 0)%Z
  then (items, [{| title := "Remove"; message := "Select a row to remove." |}])
  else (fst (KeyTableModel.Remove index items), []).

(** ** The injection of a rune *)

(** Package [unicode/utf16]. *)
Module utf16.

Definition surr1 : N := 0xd800%N.
Definition surr2 : N := 0xdc00%N.
Definition surr3 : N := 0xe000%N.
Definition surrSelf : N := 0x10000%N.
Definition maxRune : N := 0x10FFFF%N.
Definition replacementChar : N := 0xFFFD%N.

(** The conversion [uint16(x)]. *)
Definition uint16 (x : N) : N := (x mod 65536)%N.

(** [utf16.EncodeRune], for a rune from [surrSelf] to [maxRune]. *)
Definition EncodeRune (r : rune) : N * N :=
  let r' := (r - surrSelf)%N in
  ((surr1 + N.land (N.shiftr r' 10) 0x3ff)%N, (surr2 + N.land r' 0x3ff)%N).

(** One round of the loop of [utf16.Encode]. *)
Definition encodeOne (v : rune) : list N :=
  if (v <? surr1)%N || ((surr3 <=? v)%N && (v <? surrSelf)%N) then [uint16 v]
  else if (surrSelf <=? v)%N && (v <=? maxRune)%N then
    let '(r1, r2) := EncodeRune v in [uint16 r1; uint16 r2]
  else [uint16 replacementChar].

Definition Encode (s : list rune) : list N := flat_map encodeOne s.

End utf16.

(** The Windows [keyboardInput] and [input] structures (the padding field of
    [input] is left out). *)
Record keyboardInput := {
  Vk : N;
  Scan : N;
  Flags : N;
  Time : N;
  ExtraInfo : N
}.

Record input := {
  Type_ : N;
  Ki : keyboardInput
}.

Definition inputKeyboard : N := 1%N.
Definition keyeventfUnicode : N := 0x0004%N.
Definition keyeventfKeyUp : N := 0x0002%N.

(** [sendUnicodeUnit]: the structure handed to [SendInput]. *)
Definition sendUnicodeUnit (scan flags : N) : input :=
  {| Type_ := inputKeyboard;
     Ki := {| Vk := 0%N; Scan := scan;
              Flags := N.lor keyeventfUnicode flags;
              Time := 0%N; ExtraInfo := 0%N |} |}.

(** [sendUnicode]: the structures sent, in order. *)
Definition sendUnicode (r : rune) : list input :=
  flat_map
    (fun unit =>
       [sendUnicodeUnit (utf16.uint16 unit) 0%N;
        sendUnicodeUnit (utf16.uint16 unit) keyeventfKeyUp])
    (utf16.Encode [r]).

(** The macOS events: a keyboard event for a key code, pressed or released,
    with the Unicode string set on it (empty when none is set). *)
Record CGEvent := {
  keyCode : Z;
  keyDown : bool;
  unicodeString : list N
}.

(** [keyTap] and [keyTapUnicode]: the events posted; [created] tells whether
    both calls of [CGEventCreateKeyboardEvent] returned an event. *)
Definition keyTap (created : bool) (code : Z) : list CGEvent :=
  if created then
    [{| keyCode := code; keyDown := true; unicodeString := [] |};
     {| keyCode := code; keyDown := false; unicodeString := [] |}]
  else [].

Definition keyTapUnicode (created : bool) (r : rune) : list CGEvent :=
  let units := utf16.Encode [r] in
  if (List.length units =? 0)%nat then [] else
  if created then
    [{| keyCode := 0%Z; keyDown := true; unicodeString := units |};
     {| keyCode := 0%Z; keyDown := false; unicodeString := units |}]
  else [].

(** A Unicode scalar value: a code point that is not a surrogate. *)
Definition validScalar (r : rune) : bool :=
  ((r <? 0xD800)%N || (0xE000 <=? r)%N) && (r <=? 0x10FFFF)%N.

(** The code point a reader of UTF-16 takes from the units of one
    character. *)
Definition utf16_value (units : list N) : option rune :=
  match units with
  | [u] =>
    if (0xD800 <=? u)%N && (u <? 0xE000)%N then None else Some u
  | [hi; lo] =>
    if (0xD800 <=? hi)%N && (hi <? 0xDC00)%N
       && (0xDC00 <=? lo)%N && (lo <? 0xE000)%N
    then Some (0x10000 + (hi - 0xD800) * 0x400 + (lo - 0xDC00))%N
    else None
  | _ => None
  end.

(** The scan code of a structure sent to [SendInput] and whether it is a
    key release. *)
Definition scanAndRelease (e : input) : N * bool :=
  (Scan (Ki e), (N.land (Flags (Ki e)) keyeventfKeyUp =? keyeventfKeyUp)%N).

(** ** The Add dialog *)

(** Package [strconv]. *)
Module strconv.

(** The value of a string of decimal digits, [None] when a byte is not a
    digit. *)
Fixpoint digitsValue (s : string) (acc : Z) : option Z :=
  match s with
  | EmptyString => Some acc
  | String c t =>
    let d := byte_val c in
    if (0x30 <=? d)%N && (d <=? 0x39)%N
    then digitsValue t (acc * 10 + Z.of_N (d - 0x30))%Z
    else None
  end.

(** [strconv.Atoi] for a 64-bit [int]: an optional sign followed by at
    least one decimal digit, of a value that fits; [None] stands for its
    error results (syntax and range). *)
Definition Atoi (s : string) : option Z :=
  match s with
  | EmptyString => None
  | String c t =>
    let neg := Ascii.eqb c "-" in
    let body := if Ascii.eqb c "-" || Ascii.eqb c "+" then t else s in
    match body with
    | EmptyString => None
    | String _ _ =>
      match digitsValue body 0 with
      | None => None
      | Some n =>
        let v := (if neg then - n else n)%Z in
        if (- 2 ^ 63 <=? v)%Z && (v <? 2 ^ 63)%Z then Some v else None
      end
    end
  end.

End strconv.

(** [parseInterval] on a string, the case of its type switch that the
    dialogs reach (they pass the text of a line edit). *)
Definition parseInterval (v : string) : Z :=
  let value := strings.TrimSpace v in
  if value =? "" then 0%Z else
  match strconv.Atoi value with
  | None => 0%Z
  | Some parsed => parsed
  end.

Definition validationMessage : string :=
  "Enter a key and a positive interval in ms.".

(** The Add button of the Add dialog, on both platforms: from the texts of
    the two line edits and the state of the check box, the entry added (none
    when the validation fails) and the dialog shown. *)
Definition showAddDialog (keyText intervalText : string) (checked : bool)
    : option KeyEntry * list Dialog :=
  let key := strings.TrimSpace keyText in
  let interval := parseInterval intervalText in
  if (key =? "") || (interval <=? 0)%Z then
    (None, [{| title := "Validation"; message := validationMessage |}])
  else
    (Some {| Key := key; IntervalMS := interval; Enabled := checked |}, []).

(** What a task asks the injector for, whatever the key code. *)
Definition requestOf (t : KeyTask) : bool * rune * Z :=
  (UseUnicode t, UnicodeRune t, Interval t).

(** ** Vocabulary of the Runner's invariant and of the Start button *)

(** A step other than a call of [Start] with no task. *)
Definition startsSomething (l : Label) : Prop :=
  match l with
  | CallStart [] => False
  | _ => True
  end.

(** A step other than the return of [runTask] on a failed key bonding. *)
Definition bondingMade (l : Label) : Prop :=
  match l with
  | BondingFailed _ => False
  | _ => True
  end.

(** While the flag is set, an executor is alive or about to be launched. *)
Definition someoneAlive (s : System) : Prop :=
  running (runner s) = true ->
  match caller s with
  | Ready => (0 < aliveCount (executors s))%Z
  | Spawning rest => rest <> [] \/ (0 < aliveCount (executors s))%Z
  | Waiting => True
  end.

(** A run that is under way, a call of [Start] with no task, and a run in
    which the only executor fails to make its key bonding. *)
Definition sampleRunning : list Label :=
  [CallStart [sampleTask]; Spawn; ReturnStart; Setup 0; Tick 0].

Definition emptyStart : list Label := [CallStart []; ReturnStart].

Definition failedBonding : list Label :=
  [CallStart [{| KeyCode := 116; UnicodeRune := 0%N; UseUnicode := false;
                 Interval := 100000000 |}];
   Spawn; ReturnStart; BondingFailed 0].

(** An executor that is launched with an interval that is not positive. *)
Definition cannotTick (s : System) (i : nat) : Prop :=
  exists e, executors s !! i = Some e /\ phase e = Launched /\
            (Interval (task e) <= 0)%Z.

(** Two entries the Add dialog accepts; the interval of the second one does
    not fit a [time.Duration] in nanoseconds. *)
Definition overflowEntries : list KeyEntry :=
  [{| Key := "b"; IntervalMS := 100; Enabled := true |};
   {| Key := "a"; IntervalMS := 9223372036855; Enabled := true |}].

Definition overflowTasks : list KeyTask :=
  [{| KeyCode := 0; UnicodeRune := 98%N; UseUnicode := true;
      Interval := 100000000 |};
   {| KeyCode := 0; UnicodeRune := 97%N; UseUnicode := true;
      Interval := (-9223372036854551616)%Z |}].



(** * Properties *)

(** ** The string functions *)

Section StringFacts.

Lemma append_cons (c : ascii) (a b : string) :
  String c a ++ b = String c (a ++ b).
Proof. reflexivity. Qed.

Lemma append_nil (b : string) : "" ++ b = b.
Proof. reflexivity. Qed.

Lemma str_take_drop (n : nat) (s : string) :
  str_take n s ++ str_drop n s = s.
Proof.
  revert s; induction n as [|n IH]; intros [|c t]; simpl; try reflexivity.
  rewrite append_cons; f_equal; apply IH.
Qed.

Lemma str_drop_length (n : nat) (s : string) :
  String.length (str_drop n s) = (String.length s - n)%nat.
Proof.
  revert s; induction n as [|n IH]; intros [|c t]; simpl; auto with arith.
Qed.

Lemma str_map_length (f : ascii -> ascii) (s : string) :
  String.length (str_map f s) = String.length s.
Proof. induction s; simpl; congruence. Qed.

Lemma str_length_zero (s : string) : String.length s = 0%nat -> s = "".
Proof. destruct s; simpl; [reflexivity | discriminate]. Qed.

Lemma app_length_str (a b : string) :
  String.length (a ++ b) = (String.length a + String.length b)%nat.
Proof.
  induction a; [reflexivity|].
  rewrite append_cons; simpl; congruence.
Qed.

(** A decoded rune takes at least one byte. *)
Lemma DecodeRune_width (c : ascii) (t : string) :
  (1 <= snd (utf8.DecodeRuneInString (String c t)))%nat.
Proof.
  unfold utf8.DecodeRuneInString.
  repeat case_match; simpl; lia.
Qed.

Lemma EncodeRune_length (r : rune) :
  (1 <= String.length (utf8.EncodeRune r))%nat.
Proof.
  unfold utf8.EncodeRune, utf8.three.
  repeat case_match; simpl; lia.
Qed.

Lemma decode_loop_chunks (fuel : nat) (s : string) :
  Forall chunk_ok (utf8.decode_loop fuel s).
Proof.
  revert s; induction fuel as [|fuel IH]; intros s; simpl; [constructor|].
  destruct s as [|c t]; [constructor|].
  pose proof (DecodeRune_width c t) as Hw.
  destruct (utf8.DecodeRuneInString (String c t)) as [r w]; simpl in Hw.
  constructor; [|apply IH].
  unfold chunk_ok; destruct w; [lia|]; simpl; lia.
Qed.

(** The loop consumes the whole string: the fuel never runs out. *)
Lemma decode_loop_covers (fuel : nat) (s : string) :
  (String.length s <= fuel)%nat ->
  strings.concat_bytes (map snd (utf8.decode_loop fuel s)) = s.
Proof.
  revert s; induction fuel as [|fuel IH]; intros s Hlen; simpl.
  - symmetry; apply str_length_zero; lia.
  - destruct s as [|c t]; [reflexivity|].
    pose proof (DecodeRune_width c t) as Hw.
    destruct (utf8.DecodeRuneInString (String c t)) as [r w]; simpl in Hw.
    cbn [map snd strings.concat_bytes fold_right].
    rewrite IH.
    + apply str_take_drop.
    + rewrite str_drop_length; simpl in *; lia.
Qed.

Lemma decode_covers (s : string) :
  strings.concat_bytes (map snd (utf8.decode s)) = s.
Proof. apply decode_loop_covers; lia. Qed.

Lemma decode_chunks (s : string) : Forall chunk_ok (utf8.decode s).
Proof. apply decode_loop_chunks. Qed.

Lemma concat_bytes_length (l : list (rune * string)) :
  Forall chunk_ok l ->
  (List.length l <= String.length (strings.concat_bytes (map snd l)))%nat.
Proof.
  induction 1 as [|c l Hc _ IH]; simpl; [lia|].
  rewrite app_length_str; unfold chunk_ok in Hc; lia.
Qed.

Lemma concat_bytes_empty (l : list (rune * string)) :
  Forall chunk_ok l ->
  strings.concat_bytes (map snd l) = "" -> l = [].
Proof.
  intros Hl He; apply concat_bytes_length in Hl.
  rewrite He in Hl; destruct l; [reflexivity | simpl in Hl; lia].
Qed.

(** A string has no more runes than bytes, and none only when empty. *)
Lemma runes_le_bytes (s : string) :
  (List.length (runes_of s) <= String.length s)%nat.
Proof.
  unfold runes_of; rewrite length_map.
  rewrite <- (decode_covers s) at 2.
  apply concat_bytes_length, decode_chunks.
Qed.

Lemma runes_of_empty (s : string) : runes_of s = [] <-> s = "".
Proof.
  split; intros Hs; [|now subst].
  unfold runes_of in Hs; apply map_eq_nil in Hs.
  rewrite <- (decode_covers s), Hs; reflexivity.
Qed.

Lemma concat_bytes_ge {A : Type} (g : A -> string) (l : list A) :
  (forall x, (1 <= String.length (g x))%nat) ->
  (List.length l <= String.length (strings.concat_bytes (map g l)))%nat.
Proof.
  intros Hg; induction l as [|x l IH]; simpl; [lia|].
  rewrite app_length_str; specialize (Hg x); lia.
Qed.

(** *** Trimming *)

Lemma trimLeft_Forall (P : rune * string -> Prop) (l : list (rune * string)) :
  Forall P l -> Forall P (strings.trimLeft l).
Proof.
  induction 1 as [|c l Hc Hl IH]; simpl; [constructor|].
  destruct (unicode.IsSpace (fst c)); [assumption | now constructor].
Qed.

Lemma trimLeft_nil (l : list (rune * string)) :
  strings.trimLeft l = [] <-> forallb spaceChunk l = true.
Proof.
  induction l as [|c l IH]; simpl; [tauto|].
  unfold spaceChunk at 1.
  destruct (unicode.IsSpace (fst c)); simpl; [exact IH|].
  split; discriminate.
Qed.

Lemma trimLeft_head (l : list (rune * string)) :
  strings.trimLeft l = [] \/ forallb spaceChunk (strings.trimLeft l) = false.
Proof.
  induction l as [|c l IH]; simpl; [now left|].
  destruct (unicode.IsSpace (fst c)) eqn:Hc; [exact IH|].
  right; simpl; unfold spaceChunk at 1; now rewrite Hc.
Qed.

Lemma forallb_rev {A : Type} (p : A -> bool) (l : list A) :
  forallb p (rev l) = forallb p l.
Proof.
  induction l as [|x l IH]; simpl; [reflexivity|].
  rewrite forallb_app, IH; simpl.
  rewrite andb_true_r; apply andb_comm.
Qed.

Lemma trimRight_nil (l : list (rune * string)) :
  strings.trimRight l = [] <-> forallb spaceChunk l = true.
Proof.
  unfold strings.trimRight.
  rewrite <- (forallb_rev spaceChunk l), <- trimLeft_nil.
  split; intros Hl.
  - apply (f_equal (@rev _)) in Hl; now rewrite rev_involutive in Hl.
  - now rewrite Hl.
Qed.

Lemma trim_nil (l : list (rune * string)) :
  strings.trimRight (strings.trimLeft l) = [] <-> forallb spaceChunk l = true.
Proof.
  rewrite trimRight_nil, <- (trimLeft_nil l).
  destruct (trimLeft_head l) as [Hl | Hl]; rewrite Hl.
  - tauto.
  - split; [discriminate|].
    intros He; rewrite He in Hl; discriminate.
Qed.

Lemma trim_chunks (l : list (rune * string)) :
  Forall chunk_ok l -> Forall chunk_ok (strings.trimRight (strings.trimLeft l)).
Proof.
  intros Hl; unfold strings.trimRight.
  apply Forall_rev, trimLeft_Forall, Forall_rev, trimLeft_Forall, Hl.
Qed.

Lemma blank_chunks (s : string) :
  blank s = forallb spaceChunk (utf8.decode s).
Proof.
  unfold blank, runes_of.
  induction (utf8.decode s) as [|c l IH]; simpl; [reflexivity|].
  now rewrite IH.
Qed.

(** Trimming leaves nothing exactly for the blank inputs. *)
Lemma TrimSpace_empty (s : string) :
  strings.TrimSpace s = "" <-> blank s = true.
Proof.
  rewrite blank_chunks, <- trim_nil; unfold strings.TrimSpace.
  split; intros Hs.
  - apply concat_bytes_empty in Hs; [assumption|].
    apply trim_chunks, decode_chunks.
  - now rewrite Hs.
Qed.

End StringFacts.

Section UpperFacts.
Context `{CaseTable}.

(** Upper-casing never yields fewer bytes than the string has runes. *)
Lemma ToUpper_length (s : string) :
  (List.length (runes_of s) <= String.length (strings.ToUpper s))%nat.
Proof.
  unfold strings.ToUpper.
  destruct (str_forall _ s).
  - destruct (negb _); [|rewrite str_map_length]; apply runes_le_bytes.
  - unfold strings.Map, runes_of; rewrite length_map.
    apply concat_bytes_ge; intros c; apply EncodeRune_length.
Qed.

Lemma ToUpper_empty (s : string) : strings.ToUpper s = "" <-> s = "".
Proof.
  split; intros Hs; [|now subst].
  pose proof (ToUpper_length s) as Hlen; rewrite Hs in Hlen; simpl in Hlen.
  apply runes_of_empty.
  destruct (runes_of s); [reflexivity | simpl in Hlen; lia].
Qed.

(** The guard of the letter and digit block cannot hold once the
    one-rune test has failed. *)
Lemma one_byte_key_one_rune (s : string) :
  String.length (strings.ToUpper s) = 1%nat ->
  List.length (runes_of s) = 1%nat.
Proof.
  intros Hk.
  pose proof (ToUpper_length s) as Hlen.
  destruct (runes_of s) as [|r l] eqn:Hr; [|simpl in *; lia].
  apply (proj1 (runes_of_empty _)) in Hr; subst s; discriminate.
Qed.

End UpperFacts.

(** ** Key resolution *)

Section Resolution.
Context `{CaseTable} `{keybd_event}.

Lemma named_mem (name : string) :
  existsb (String.eqb name) namedKeys = true -> In name namedKeys.
Proof.
  intros He; apply existsb_exists in He as (n & Hin & Heq).
  apply String.eqb_eq in Heq; now subst.
Qed.

Ltac each_named Hin :=
  cbv [namedKeys functionKeys app] in Hin;
  repeat (destruct Hin as [<- | Hin]); [.. | contradiction].

Ltac no_case Hnin :=
  repeat match goal with
  | |- context [(?k =? ?n)%string] =>
    rewrite (proj2 (String.eqb_neq k n))
      by (intros ->; apply Hnin, named_mem; reflexivity)
  end.

Lemma namedKeys_upper (name : string) :
  In name namedKeys -> strings.ToUpper name = name.
Proof. intros Hin; each_named Hin; reflexivity. Qed.

Lemma namedKeys_codes (name : string) :
  In name namedKeys ->
  exists mac win,
    codeOf macNamedKeyCodes name = Some mac /\
    codeOf winNamedKeyCodes name = Some win /\
    (forall input, Darwin.namedKey name input = (KeyTask_code mac, None)) /\
    (forall input, Windows.namedKey name input = (KeyTask_code win, None)).
Proof.
  intros Hin; each_named Hin;
    (eexists _, _; split; [reflexivity | split; [reflexivity | split]];
     intros input; reflexivity).
Qed.

Lemma mac_namedKey_miss (key input : string) :
  ~ In key namedKeys ->
  Darwin.namedKey key input = (KeyTask_zero, Some ("unsupported key: " ++ input)).
Proof.
  intros Hnin; unfold Darwin.namedKey, functionKeys; cbn [existsb].
  no_case Hnin; reflexivity.
Qed.

Lemma win_namedKey_miss (key input : string) :
  ~ In key namedKeys ->
  Windows.namedKey key input = (KeyTask_zero, Some ("unsupported key: " ++ input)).
Proof.
  intros Hnin; unfold Windows.namedKey.
  no_case Hnin; reflexivity.
Qed.

(** *** The three outcomes of the resolution without the letter block *)

Variable named : string -> string -> KeyTask * option error.

Lemma resolve_blank (input : string) :
  blank input = true ->
  resolveWithoutLetters named input = (KeyTask_zero, Some "empty key").
Proof.
  intros Hb; apply (proj2 (TrimSpace_empty _)) in Hb.
  unfold resolveWithoutLetters; now rewrite Hb.
Qed.

Lemma key_not_empty (input : string) :
  runes_of (strings.TrimSpace input) <> [] ->
  (strings.ToUpper (strings.TrimSpace input) =? "") = false.
Proof.
  intros Hr; apply String.eqb_neq; intros Hk.
  apply (proj1 (ToUpper_empty _)) in Hk; now rewrite Hk in Hr.
Qed.

Lemma resolve_single (input : string) (r : rune) :
  runes_of (strings.TrimSpace input) = [r] ->
  resolveWithoutLetters named input = (KeyTask_unicode r, None).
Proof.
  intros Hr; unfold resolveWithoutLetters.
  rewrite key_not_empty by (rewrite Hr; discriminate).
  now rewrite Hr.
Qed.

Lemma resolve_multi (input : string) :
  multiCharacter input ->
  resolveWithoutLetters named input =
  named (strings.ToUpper (strings.TrimSpace input)) input.
Proof.
  unfold multiCharacter, resolveWithoutLetters; intros Hm.
  rewrite key_not_empty
    by (destruct (runes_of (strings.TrimSpace input)); [simpl in Hm; lia | discriminate]).
  destruct (Nat.eqb_spec (List.length (runes_of (strings.TrimSpace input))) 1);
    [lia | reflexivity].
Qed.

Hypothesis named_hit :
  forall key input, In key namedKeys -> snd (named key input) = None.
Hypothesis named_miss :
  forall key input, ~ In key namedKeys -> snd (named key input) <> None.

Lemma resolve_fails (input : string) :
  snd (resolveWithoutLetters named input) <> None <->
  blank input = true \/
  (multiCharacter input /\
   forall name, In name namedKeys ->
     ~ equalIgnoreCase (strings.TrimSpace input) name).
Proof.
  set (t := strings.TrimSpace input).
  destruct (blank input) eqn:Hb.
  - rewrite resolve_blank by assumption; simpl.
    split; [now left | discriminate].
  - assert (Ht : runes_of t <> []).
    { intros Hr; apply (proj1 (runes_of_empty _)) in Hr.
      apply (proj1 (TrimSpace_empty _)) in Hr; congruence. }
    destruct (runes_of t) as [|r [|r' l]] eqn:Hr; [congruence | |].
    + rewrite (resolve_single input r Hr); simpl.
      split; [congruence|].
      intros [Hf | [Hm _]]; [discriminate|].
      unfold multiCharacter in Hm; fold t in Hm; rewrite Hr in Hm.
      simpl in Hm; lia.
    + assert (Hm : multiCharacter input).
      { unfold multiCharacter; fold t; rewrite Hr; simpl; lia. }
      rewrite (resolve_multi input Hm); fold t.
      destruct (In_dec String.string_dec (strings.ToUpper t) namedKeys) as [Hin | Hnin].
      * rewrite named_hit by assumption.
        split; [congruence|].
        intros [Hf | [_ Hno]]; [discriminate|].
        exfalso; apply (Hno _ Hin).
        unfold equalIgnoreCase; now rewrite (namedKeys_upper _ Hin).
      * split; [|intros _; now apply named_miss].
        intros _; right; split; [assumption|].
        intros name Hin He; unfold equalIgnoreCase in He.
        rewrite (namedKeys_upper _ Hin) in He; congruence.
Qed.

End Resolution.

Section ResolutionClaims.
Context `{CaseTable} `{keybd_event}.

Lemma letterOrDigit_mac_skipped (key : string) :
  String.length key <> 1%nat -> Darwin.letterOrDigit key = None.
Proof.
  intros Hk; unfold Darwin.letterOrDigit.
  destruct (Nat.eqb_spec (String.length key) 1); [contradiction | reflexivity].
Qed.

Lemma letterOrDigit_win_skipped (key : string) :
  String.length key <> 1%nat -> Windows.letterOrDigit key = None.
Proof.
  intros Hk; unfold Windows.letterOrDigit.
  destruct (Nat.eqb_spec (String.length key) 1); [contradiction | reflexivity].
Qed.

Lemma parseMacInput_rules (input : string) :
  Darwin.parseMacInput input = resolveWithoutLetters Darwin.namedKey input.
Proof.
  unfold Darwin.parseMacInput, resolveWithoutLetters; cbv zeta.
  destruct (_ =? "")%string; [reflexivity|].
  destruct (Nat.eqb_spec (List.length (runes_of (strings.TrimSpace input))) 1) as [|Hr];
    [reflexivity|].
  rewrite letterOrDigit_mac_skipped; [reflexivity|].
  intros Hk; apply Hr, one_byte_key_one_rune, Hk.
Qed.

Lemma parseKeyInput_rules (input : string) :
  Windows.parseKeyInput input = resolveWithoutLetters Windows.namedKey input.
Proof.
  unfold Windows.parseKeyInput, resolveWithoutLetters; cbv zeta.
  destruct (_ =? "")%string; [reflexivity|].
  destruct (Nat.eqb_spec (List.length (runes_of (strings.TrimSpace input))) 1) as [|Hr];
    [reflexivity|].
  rewrite letterOrDigit_win_skipped; [reflexivity|].
  intros Hk; apply Hr, one_byte_key_one_rune, Hk.
Qed.

(** C1.  When the trimmed input is exactly one rune [r], both resolvers
    succeed and return the Unicode target [KeyTask{UnicodeRune: r,
    UseUnicode: true}]: the rune is the one typed (it is not upper-cased),
    and no key code is looked up, whatever the character. *)
Theorem C1_single_character_is_unicode (input : string) (r : rune) :
  runes_of (strings.TrimSpace input) = [r] ->
  Darwin.parseMacInput input = (KeyTask_unicode r, None) /\
  Windows.parseKeyInput input = (KeyTask_unicode r, None).
Proof.
  intros Hr; rewrite parseMacInput_rules, parseKeyInput_rules.
  split; apply resolve_single, Hr.
Qed.

(** C7.  When the trimmed input has more than one character and equals a
    named key up to case, both resolvers succeed with the code their table
    gives for that name; the result is a function of the input, so equal
    inputs resolve alike. *)
Theorem C7_named_key_codes (input name : string) :
  In name namedKeys ->
  multiCharacter input ->
  equalIgnoreCase (strings.TrimSpace input) name ->
  (exists mac win,
      codeOf macNamedKeyCodes name = Some mac /\
      codeOf winNamedKeyCodes name = Some win /\
      Darwin.parseMacInput input = (KeyTask_code mac, None) /\
      Windows.parseKeyInput input = (KeyTask_code win, None)) /\
  (forall again, again = input ->
      Darwin.parseMacInput again = Darwin.parseMacInput input /\
      Windows.parseKeyInput again = Windows.parseKeyInput input).
Proof.
  intros Hin Hm He; split; [|intros again ->; split; reflexivity].
  destruct (namedKeys_codes name Hin) as (mac & win & Hmac & Hwin & Hd & Hw).
  exists mac, win; repeat split; try assumption.
  - rewrite parseMacInput_rules, resolve_multi by assumption.
    unfold equalIgnoreCase in He; rewrite He, (namedKeys_upper _ Hin); apply Hd.
  - rewrite parseKeyInput_rules, resolve_multi by assumption.
    unfold equalIgnoreCase in He; rewrite He, (namedKeys_upper _ Hin); apply Hw.
Qed.

(** C8.  Each resolver fails exactly when the input is blank (empty or
    white space only), or when the trimmed input has more than one
    character and equals no named key up to case. *)
Theorem C8_failure_exactly (input : string) :
  (snd (Darwin.parseMacInput input) <> None <->
   blank input = true \/
   (multiCharacter input /\
    forall name, In name namedKeys ->
      ~ equalIgnoreCase (strings.TrimSpace input) name)) /\
  (snd (Windows.parseKeyInput input) <> None <->
   blank input = true \/
   (multiCharacter input /\
    forall name, In name namedKeys ->
      ~ equalIgnoreCase (strings.TrimSpace input) name)).
Proof.
  rewrite parseMacInput_rules, parseKeyInput_rules.
  split; apply resolve_fails.
  - intros key inp Hin.
    destruct (namedKeys_codes key Hin) as (mac & _ & _ & _ & Hd & _).
    now rewrite Hd.
  - intros key inp Hnin; now rewrite mac_namedKey_miss.
  - intros key inp Hin.
    destruct (namedKeys_codes key Hin) as (_ & win & _ & _ & _ & Hw).
    now rewrite Hw.
  - intros key inp Hnin; now rewrite win_namedKey_miss.
Qed.

(** C10.  For every input the letter and digit block is dead: either the
    trimmed input is exactly one rune (rule 1 has answered before the block
    is reached), or its upper-case form is not one byte long and the block
    falls through on both platforms; so each resolver computes what it
    computes with the block removed, and no result is a letter or digit
    key code. *)
Theorem C10_letter_digit_block_dead (input : string) :
  (List.length (runes_of (strings.TrimSpace input)) = 1%nat \/
   (String.length (strings.ToUpper (strings.TrimSpace input)) <> 1%nat /\
    Darwin.letterOrDigit (strings.ToUpper (strings.TrimSpace input)) = None /\
    Windows.letterOrDigit (strings.ToUpper (strings.TrimSpace input)) = None)) /\
  Darwin.parseMacInput input = resolveWithoutLetters Darwin.namedKey input /\
  Windows.parseKeyInput input = resolveWithoutLetters Windows.namedKey input.
Proof.
  split; [|split].
  - destruct (Nat.eq_dec (String.length (strings.ToUpper (strings.TrimSpace input))) 1)
      as [Hk | Hk]; [left; apply one_byte_key_one_rune, Hk | right].
    split; [assumption | split].
    + now apply letterOrDigit_mac_skipped.
    + now apply letterOrDigit_win_skipped.
  - apply parseMacInput_rules.
  - apply parseKeyInput_rules.
Qed.

End ResolutionClaims.

(** ** The Runner *)

Section RunnerFacts.
Local Open Scope list_scope.

Lemma aliveCount_nonneg (l : list Executor) : (0 <= aliveCount l)%Z.
Proof. induction l as [|e l IH]; simpl; [lia | destruct (alive e); lia]. Qed.

Lemma aliveCount_app (l l' : list Executor) :
  aliveCount (l ++ l') = (aliveCount l + aliveCount l')%Z.
Proof. induction l as [|e l IH]; simpl; [lia | rewrite IH; lia]. Qed.

Lemma aliveCount_insert (l : list Executor) (i : nat) (e e' : Executor) :
  l !! i = Some e ->
  (aliveCount (<[i := e']> l) + (if alive e then 1 else 0)
   = aliveCount l + (if alive e' then 1 else 0))%Z.
Proof.
  revert i; induction l as [|x l IH]; intros [|i] Hi; simpl in *;
    try discriminate.
  - injection Hi as ->; lia.
  - specialize (IH i Hi); lia.
Qed.

Lemma aliveCount_zero (l : list Executor) :
  aliveCount l = 0%Z <-> Forall (fun e => phase e = Exited) l.
Proof.
  induction l as [|e l IH]; simpl.
  - split; [constructor | reflexivity].
  - pose proof (aliveCount_nonneg l) as Hl.
    unfold alive; split.
    + intros Hz; destruct (phase e) eqn:He; try lia.
      constructor; [assumption | apply IH; lia].
    + intros Hall; apply Forall_cons in Hall as [He Hall].
      rewrite He; apply IH in Hall; lia.
Qed.

Lemma aliveCount_launched (tasks : list KeyTask) :
  aliveCount (launched tasks) = Z.of_nat (List.length tasks).
Proof. induction tasks as [|t l IH]; simpl; [reflexivity | rewrite IH; lia]. Qed.

(** Which executor a step of [runTask] belongs to, and what the phase test
    of [step] tells. *)
Lemma in_phase_next (ph : Phase) (i : nat) (s s' : System)
    (k : Executor -> Outcome) :
  in_phase ph i s k = Next s' ->
  exists e, executors s !! i = Some e /\ phase e = ph /\
            ph <> Exited /\ k e = Next s'.
Proof.
  unfold in_phase; intros Hk.
  destruct (executors s !! i) as [e|]; [|discriminate].
  exists e; destruct (phase e), ph; try discriminate; repeat split;
    solve [assumption | discriminate].
Qed.

Lemma exit_next (i : nat) (e : Executor) (s s' : System) :
  exit i e s = Next s' ->
  s' = with_runner {| stopCh := stopCh (runner s);
                      wg := (wg (runner s) - 1)%Z;
                      running := running (runner s) |}
         (set_phase i e Exited s).
Proof.
  unfold exit; destruct (_ <? 0)%Z; [discriminate|].
  now intros [= <-].
Qed.

Lemma step_executor (p : Platform) (l : Label) (s s' : System) :
  step p l s = Next s' ->
  match l with
  | Setup i | BondingFailed i | Tick i | Cancel i => executor_step p i s s'
  | _ => True
  end.
Proof.
  destruct l; simpl; intros Hs; try exact I;
    apply in_phase_next in Hs as (e & Hi & Hph & Hne & Hk).
  - unfold runTask_setup in Hk; destruct (_ <? _)%Z; [|discriminate].
    injection Hk as <-; now apply es_setup with e.
  - unfold runTask_bonding_failed in Hk.
    destruct p; [discriminate|].
    destruct (UseUnicode (task e)); [discriminate|].
    apply exit_next in Hk; apply es_exit with e; try assumption; congruence.
  - injection Hk as <-; now apply es_tick with e.
  - unfold runTask_cancel in Hk.
    destruct (stopCh (runner s)); try discriminate.
    apply exit_next in Hk; apply es_exit with e; try assumption; congruence.
Qed.

(** *** The state invariant *)

Lemma initial_consistent : consistent initial.
Proof. split; simpl; try discriminate; try reflexivity. split; discriminate. Qed.

Lemma executor_step_consistent (p : Platform) (i : nat) (s s' : System) :
  consistent s -> executor_step p i s s' -> consistent s'.
Proof.
  intros [Hfc Hwg Hidle Hsp Hwt] [e Hi Hph -> | e Hi Hph -> | e Hi Hph ->].
  - pose proof (aliveCount_insert _ _ _ {| task := task e; phase := Selecting |} Hi) as Hc.
    unfold alive in Hc; rewrite Hph in Hc; simpl in Hc.
    split; simpl; try assumption; try lia.
    intros Hr Hf; specialize (Hidle Hr Hf); lia.
  - pose proof (aliveCount_insert _ _ _ {| task := task e; phase := Exited |} Hi) as Hc.
    pose proof (aliveCount_nonneg
                  (<[i := {| task := task e; phase := Exited |}]> (executors s))) as Hn.
    assert (Ha : alive e = true) by (unfold alive; destruct (phase e); congruence).
    rewrite Ha in Hc; unfold alive in Hc; simpl in Hc.
    split; simpl; try assumption; try lia.
    intros Hr Hf; specialize (Hidle Hr Hf); lia.
  - split; simpl; assumption.
Qed.

Lemma step_consistent (p : Platform) (l : Label) (s s' : System) :
  consistent s -> step p l s = Next s' -> consistent s'.
Proof.
  intros Hc Hs.
  pose proof (step_executor _ _ _ _ Hs) as He.
  destruct l; try (eapply executor_step_consistent; eassumption);
    clear He; pose proof Hc as [Hfc Hwg Hidle Hsp Hwt]; simpl in Hs.
  - (* CallStart *)
    destruct (caller s) eqn:Hcl; try discriminate.
    injection Hs as <-; unfold Start_locked.
    destruct (running (runner s)) eqn:Hr; [exact Hc|].
    split; simpl; try assumption; try discriminate; try reflexivity.
    tauto.
  - (* Spawn *)
    destruct (caller s) as [|[|t rest]|] eqn:Hcl; try discriminate.
    injection Hs as <-.
    split; simpl; try assumption; try discriminate.
    + rewrite aliveCount_app; simpl; lia.
    + intros _ _; apply (Hsp _ eq_refl).
  - (* ReturnStart *)
    destruct (caller s) as [|[|t rest]|] eqn:Hcl; try discriminate.
    injection Hs as <-.
    split; simpl; try assumption; try discriminate.
    intros _ Hf; rewrite (Hsp _ eq_refl) in Hf; discriminate.
  - (* CallStop *)
    destruct (caller s) eqn:Hcl; try discriminate.
    unfold Stop_locked in Hs.
    destruct (running (runner s)) eqn:Hr; simpl in Hs;
      [|injection Hs as <-; exact Hc].
    destruct (stopCh (runner s)); try discriminate.
    injection Hs as <-.
    split; simpl; try assumption; try discriminate; try reflexivity.
    split; discriminate.
  - (* ReturnStop *)
    destruct (caller s) eqn:Hcl; try discriminate.
    unfold Stop_wait in Hs.
    destruct (Z.eqb_spec (wg (runner s)) 0) as [Hz|]; [|discriminate].
    injection Hs as <-.
    split; simpl; try assumption; try discriminate.
    intros _ _; lia.
Qed.

Lemma run_consistent (p : Platform) (trace : list Label) (s s' : System) :
  consistent s -> run p trace s = Some s' -> consistent s'.
Proof.
  revert s; induction trace as [|l trace IH]; intros s Hc Hr; simpl in Hr.
  - now injection Hr as <-.
  - destruct (step p l s) as [s1| |] eqn:Hs; try discriminate.
    eapply IH; [eapply step_consistent|]; eassumption.
Qed.

(** *** The log of injections *)

(** A step leaves the log alone or appends the injection of one executor
    that is in its loop. *)
Lemma step_log (p : Platform) (l : Label) (s s' : System) :
  step p l s = Next s' ->
  injected s' = injected s \/
  exists i e, l = Tick i /\ executors s !! i = Some e /\
              phase e = Selecting /\
              injected s' = injected s ++ [(i, injection (task e))].
Proof.
  intros Hs; destruct l; simpl in Hs;
    try (apply in_phase_next in Hs as (e & Hi & Hph & Hne & Hk)).
  - destruct (caller s); try discriminate; injection Hs as <-.
    left; unfold Start_locked; now destruct (running (runner s)).
  - destruct (caller s) as [|[|t rest]|]; try discriminate.
    injection Hs as <-; now left.
  - destruct (caller s) as [|[|t rest]|]; try discriminate.
    injection Hs as <-; now left.
  - destruct (caller s); try discriminate; unfold Stop_locked in Hs.
    destruct (running (runner s)); simpl in Hs; [|injection Hs as <-; now left].
    destruct (stopCh (runner s)); try discriminate.
    injection Hs as <-; now left.
  - destruct (caller s); try discriminate; unfold Stop_wait in Hs.
    destruct (_ =? _)%Z; try discriminate.
    injection Hs as <-; now left.
  - unfold runTask_setup in Hk; destruct (_ <? _)%Z; [|discriminate].
    injection Hk as <-; now left.
  - unfold runTask_bonding_failed in Hk; destruct p; [discriminate|].
    destruct (UseUnicode (task e)); [discriminate|].
    apply exit_next in Hk as ->; now left.
  - injection Hk as <-; right; now exists i, e.
  - unfold runTask_cancel in Hk; destruct (stopCh (runner s)); try discriminate.
    apply exit_next in Hk as ->; now left.
Qed.

(** An executor that has returned stays as it is. *)
Lemma step_exited (p : Platform) (l : Label) (s s' : System) (i : nat) :
  step p l s = Next s' -> exitedAt s i -> exitedAt s' i.
Proof.
  intros Hs (e & Hi & Hph).
  pose proof (step_executor _ _ _ _ Hs) as He.
  assert (Hstay : forall j, executor_step p j s s' -> exitedAt s' i).
  { intros j [x Hj Hx -> | x Hj Hx -> | x Hj Hx ->]; exists e; simpl;
      (split; [|assumption]); try assumption.
    all: rewrite list_lookup_insert_ne; [assumption|].
    all: intros ->; rewrite Hi in Hj; injection Hj as ->.
    all: rewrite Hph in Hx; solve [discriminate | contradiction]. }
  destruct l; try (now apply (Hstay i0)); clear He Hstay; simpl in Hs.
  - destruct (caller s); try discriminate; injection Hs as <-.
    exists e; unfold Start_locked; now destruct (running (runner s)).
  - destruct (caller s) as [|[|t rest]|]; try discriminate.
    injection Hs as <-; exists e; simpl; split; [|assumption].
    now apply lookup_app_l_Some.
  - destruct (caller s) as [|[|t rest]|]; try discriminate.
    injection Hs as <-; now exists e.
  - destruct (caller s); try discriminate; unfold Stop_locked in Hs.
    destruct (running (runner s)); simpl in Hs; [|injection Hs as <-; now exists e].
    destruct (stopCh (runner s)); try discriminate.
    injection Hs as <-; now exists e.
  - destruct (caller s); try discriminate; unfold Stop_wait in Hs.
    destruct (_ =? _)%Z; try discriminate.
    injection Hs as <-; now exists e.
Qed.

(** In every continuation of a run, each new injection comes from an
    executor that had not returned. *)
Lemma run_log (p : Platform) (trace : list Label) (s s' : System) :
  run p trace s = Some s' ->
  exists extra,
    injected s' = injected s ++ extra /\
    Forall (fun x => ~ exitedAt s (fst x)) extra.
Proof.
  revert s; induction trace as [|l trace IH]; intros s Hr; simpl in Hr.
  - injection Hr as <-; exists []; split; [now rewrite app_nil_r | constructor].
  - destruct (step p l s) as [s1| |] eqn:Hs; try discriminate.
    destruct (IH _ Hr) as (extra & Hlog & Hall).
    assert (Hall' : Forall (fun x => ~ exitedAt s (fst x)) extra).
    { eapply Forall_impl; [exact Hall|].
      intros x Hx Hex; apply Hx; eapply step_exited; eassumption. }
    destruct (step_log _ _ _ _ Hs) as [Heq | (i & e & _ & Hi & Hph & Heq)].
    + exists extra; split; [congruence | assumption].
    + exists ((i, injection (task e)) :: extra); split.
      * rewrite Hlog, Heq, <- app_assoc; reflexivity.
      * constructor; [|assumption].
        simpl; intros (e' & Hi' & Hph'); congruence.
Qed.



End RunnerFacts.

Section RunnerClaims.
Local Open Scope list_scope.

(** *** The flag and the executors *)

(** The macOS [runTask] makes no key bonding. *)
Lemma macos_makes_no_bonding (trace : list Label) (s s' : System) :
  run MacOS trace s = Some s' -> Forall bondingMade trace.
Proof.
  revert s; induction trace as [|l trace IH]; intros s Hr; [constructor|].
  simpl in Hr; destruct (step MacOS l s) as [s1| |] eqn:Hs; try discriminate.
  constructor; [|eapply IH; eassumption].
  destruct l; try exact I; simpl in Hs.
  apply in_phase_next in Hs as (e & _ & _ & _ & Hk); discriminate.
Qed.

(** While the flag is set no executor returns, unless its key bonding
    fails, and a call of [Start] that is given a task launches one. *)
Lemma step_someoneAlive (p : Platform) (l : Label) (s s' : System) :
  consistent s -> someoneAlive s ->
  startsSomething l -> bondingMade l ->
  step p l s = Next s' -> someoneAlive s'.
Proof.
  intros Hc Ha Hst Hbm Hs.
  pose proof Hc as [Hfc Hwg Hidle Hsp Hwt].
  unfold someoneAlive in *.
  destruct l; simpl in Hs, Hst, Hbm; try contradiction;
    try (apply in_phase_next in Hs as (e & Hi & Hph & Hne & Hk)).
  - (* CallStart *)
    destruct (caller s) eqn:Hcl; try discriminate.
    injection Hs as <-; unfold Start_locked.
    destruct (running (runner s)) eqn:Hr.
    + rewrite Hcl; intros _; rewrite ?Hcl in Ha; now apply Ha.
    + simpl; intros _; left; destruct tasks; [contradiction | discriminate].
  - (* Spawn *)
    destruct (caller s) as [|[|t rest]|] eqn:Hcl; try discriminate.
    injection Hs as <-; simpl; intros _; right.
    rewrite aliveCount_app; simpl.
    pose proof (aliveCount_nonneg (executors s)); lia.
  - (* ReturnStart *)
    destruct (caller s) as [|[|t rest]|] eqn:Hcl; try discriminate.
    injection Hs as <-; simpl; intros Hr.
    destruct (Ha Hr) as [Hne | Hpos]; [now contradiction Hne | assumption].
  - (* CallStop *)
    destruct (caller s) eqn:Hcl; try discriminate.
    unfold Stop_locked in Hs.
    destruct (running (runner s)) eqn:Hr; simpl in Hs;
      [|injection Hs as <-; now rewrite Hr].
    destruct (stopCh (runner s)); try discriminate.
    injection Hs as <-; simpl; discriminate.
  - (* ReturnStop *)
    destruct (caller s) eqn:Hcl; try discriminate.
    unfold Stop_wait in Hs; destruct (_ =? _)%Z; try discriminate.
    injection Hs as <-; simpl; intros Hr.
    rewrite (Hwt eq_refl) in Hr; discriminate.
  - (* Setup: the executor stays alive *)
    unfold runTask_setup in Hk; destruct (_ <? _)%Z; [|discriminate].
    injection Hk as <-; simpl.
    pose proof (aliveCount_insert _ _ _
                  {| task := task e; phase := Selecting |} Hi) as Hcnt.
    unfold alive in Hcnt; rewrite Hph in Hcnt; simpl in Hcnt.
    intros Hr; specialize (Ha Hr).
    destruct (caller s); try assumption; [lia | destruct Ha; [now left | right; lia]].
  - (* Tick *)
    injection Hk as <-; exact Ha.
  - (* Cancel: the channel is closed, so the flag is clear *)
    unfold runTask_cancel in Hk.
    destruct (stopCh (runner s)) eqn:Hch; try discriminate.
    apply exit_next in Hk as ->; simpl; intros Hr.
    apply Hfc in Hr; congruence.
Qed.

Lemma run_someoneAlive (p : Platform) (trace : list Label) (s s' : System) :
  consistent s -> someoneAlive s ->
  Forall startsSomething trace -> Forall bondingMade trace ->
  run p trace s = Some s' -> someoneAlive s'.
Proof.
  revert s; induction trace as [|l trace IH]; intros s Hc Ha Hst Hbm Hr;
    simpl in Hr.
  - now injection Hr as <-.
  - destruct (step p l s) as [s1| |] eqn:Hs; try discriminate.
    apply Forall_cons in Hst as [Hst1 Hst], Hbm as [Hbm1 Hbm].
    apply (IH s1); try assumption.
    + eapply step_consistent; eassumption.
    + eapply step_someoneAlive; eassumption.
Qed.

(** C2, as the code has it.  In every state of every run the flag is set
    exactly when the cancellation channel is open, the WaitGroup counts the
    executors that have not returned, and whenever the caller is in no call
    of the Runner and the flag is clear every executor has returned: the
    cleared flag is seen by the caller only after the join.  When moreover
    every call of [Start] was given at least one task and, on Windows, no
    executor returned on a failed key bonding, then whenever the caller is
    in no call of the Runner the flag is set exactly when at least one
    executor is alive and the channel is open. *)
Theorem C2_runner_invariant (p : Platform) (trace : list Label) (s : System) :
  run p trace initial = Some s ->
  (IsRunning s = true <-> stopCh (runner s) = ChanOpen) /\
  wg (runner s) = aliveCount (executors s) /\
  (caller s = Ready -> IsRunning s = false -> allExited s) /\
  (Forall startsSomething trace ->
   (p = MSWindows -> Forall bondingMade trace) ->
   caller s = Ready -> runningIffAlive s).
Proof.
  intros Hr.
  destruct (run_consistent p trace initial s initial_consistent Hr)
    as [Hfc Hwg Hidle _ _].
  split; [exact Hfc | split; [exact Hwg | split]].
  - intros Hc Hf; apply aliveCount_zero, Hidle; assumption.
  - intros Hst Hbm Hc.
    assert (Hbm' : Forall bondingMade trace).
    { destruct p; [eapply macos_makes_no_bonding; eassumption | now apply Hbm]. }
    assert (Ha : someoneAlive s).
    { apply (run_someoneAlive p trace initial); try assumption.
      - apply initial_consistent.
      - intros Hf; discriminate. }
    unfold someoneAlive in Ha; rewrite Hc in Ha.
    unfold runningIffAlive, IsRunning; split.
    + intros Hrun; split; [now apply Ha | now apply Hfc].
    + intros [_ Hch]; now apply Hfc.
Qed.

Lemma C2_runner_invariant_witness :
  (exists s,
     run MSWindows sampleRunning initial = Some s /\
     Forall startsSomething sampleRunning /\
     Forall bondingMade sampleRunning /\
     caller s = Ready /\ IsRunning s = true /\
     runningIffAlive s) /\
  (exists s,
     run MacOS sampleStopped initial = Some s /\
     caller s = Ready /\ IsRunning s = false /\
     wg (runner s) = aliveCount (executors s) /\
     allExited s /\ runningIffAlive s).
Proof.
  assert (Hst : Forall startsSomething sampleRunning)
    by (unfold sampleRunning; repeat constructor).
  assert (Hbm : Forall bondingMade sampleRunning)
    by (unfold sampleRunning; repeat constructor).
  assert (Hst' : Forall startsSomething sampleStopped)
    by (unfold sampleStopped, sampleStopping; repeat constructor).
  split.
  - eexists; split; [reflexivity|].
    split; [exact Hst | split; [exact Hbm | split; [reflexivity | split; [reflexivity|]]]].
    destruct (C2_runner_invariant MSWindows sampleRunning _ eq_refl)
      as (_ & _ & _ & Hiff).
    exact (Hiff Hst (fun _ => Hbm) eq_refl).
  - eexists; split; [reflexivity|].
    split; [reflexivity | split; [reflexivity|]].
    destruct (C2_runner_invariant MacOS sampleStopped _ eq_refl)
      as (_ & Hwg & Hex & Hiff).
    split; [exact Hwg | split; [exact (Hex eq_refl eq_refl)|]].
    apply (Hiff Hst'); [discriminate | reflexivity].
Defined.

(** C2 as stated fails at two points where the caller is in no call of the
    Runner: after [Start] with an empty task list, and on Windows after the
    only executor returned on a failed key bonding, the flag is set and the
    channel is open although no executor is alive. *)
Lemma C2_running_without_executors :
  (exists s,
     run MacOS emptyStart initial = Some s /\
     caller s = Ready /\ IsRunning s = true /\
     aliveCount (executors s) = 0%Z /\ ~ runningIffAlive s) /\
  (exists s,
     run MSWindows failedBonding initial = Some s /\
     caller s = Ready /\ IsRunning s = true /\
     aliveCount (executors s) = 0%Z /\ ~ runningIffAlive s).
Proof.
  split; eexists; (split; [reflexivity|]);
    (split; [reflexivity | split; [reflexivity | split; [reflexivity|]]]);
    intros [Hlive _]; destruct (Hlive eq_refl) as [Hpos _];
    vm_compute in Hpos; discriminate.
Qed.

(** C3.  While [Stop] waits on a Runner that was running, it cannot return
    as long as an executor is alive; when it returns, [IsRunning] is
    false, every executor has returned, and in every continuation the only
    injections are those of executors launched later. *)
Theorem C3_stop_joins (p : Platform) (trace : list Label) (s0 : System) :
  run p trace initial = Some s0 ->
  caller s0 = Waiting ->
  (aliveCount (executors s0) <> 0%Z -> step p ReturnStop s0 = Blocked) /\
  forall s, step p ReturnStop s0 = Next s ->
    IsRunning s = false /\ allExited s /\
    forall later s', run p later s = Some s' ->
      exists extra,
        injected s' = injected s ++ extra /\
        Forall (fun x => (List.length (executors s) <= fst x)%nat) extra.
Proof.
  intros Hr Hc.
  destruct (run_consistent p trace initial s0 initial_consistent Hr)
    as [_ Hwg _ _ Hwt].
  simpl; rewrite Hc; unfold Stop_wait; rewrite Hwg.
  destruct (Z.eqb_spec (aliveCount (executors s0)) 0) as [Hz | Hz];
    split; try congruence; try discriminate.
  intros s [= <-]; simpl.
  assert (Hex : allExited s0) by now apply aliveCount_zero.
  split; [now apply Hwt | split; [assumption|]].
  intros later s' Hl.
  destruct (run_log _ _ _ _ Hl) as (extra & Hlog & Hall).
  exists extra; split; [assumption|].
  eapply Forall_impl; [exact Hall|].
  intros [i ev] Hne; simpl in *.
  destruct (le_lt_dec (List.length (executors s0)) i) as [|Hlt]; [assumption|].
  exfalso; apply Hne.
  destruct (lookup_lt_is_Some_2 _ _ Hlt) as [e He].
  exists e; split; [assumption|].
  unfold allExited in Hex; rewrite Forall_lookup in Hex; eapply Hex, He.
Qed.

Lemma C3_stop_joins_witness :
  exists s0,
    run MacOS (sampleStopping ++ [Cancel 0]) initial = Some s0 /\
    caller s0 = Waiting /\
    ((aliveCount (executors s0) <> 0%Z -> step MacOS ReturnStop s0 = Blocked) /\
     forall s, step MacOS ReturnStop s0 = Next s ->
       IsRunning s = false /\ allExited s /\
       forall later s', run MacOS later s = Some s' ->
         exists extra,
           injected s' = injected s ++ extra /\
           Forall (fun x => (List.length (executors s) <= fst x)%nat) extra).
Proof.
  eexists; split; [reflexivity | split; [reflexivity|]].
  apply (C3_stop_joins MacOS (sampleStopping ++ [Cancel 0])); reflexivity.
Defined.

(** C5.  [Start] called by a caller that is in no other call, on a Runner
    that is running, returns with the state as it was: [IsRunning] stays
    true, the executors are the same, and no goroutine is launched (the
    loop of [Start] is not entered). *)
Theorem C5_start_when_running (p : Platform) (tasks : list KeyTask) (s : System) :
  caller s = Ready ->
  IsRunning s = true ->
  step p (CallStart tasks) s = Next s /\
  step p Spawn s = Blocked.
Proof.
  unfold IsRunning; intros Hc Hr; simpl; rewrite Hc.
  unfold Start_locked; now rewrite Hr.
Qed.

Lemma C5_start_when_running_witness :
  exists s,
    run MacOS (startTrace [sampleTask]) initial = Some s /\
    caller s = Ready /\ IsRunning s = true /\
    (step MacOS (CallStart [sampleTask; sampleTask]) s = Next s /\
     step MacOS Spawn s = Blocked).
Proof.
  eexists; split; [reflexivity | split; [reflexivity | split; [reflexivity|]]].
  apply C5_start_when_running; reflexivity.
Defined.

(** C6.  [Stop] called on an idle Runner returns at once (the caller does
    not go on to wait) and leaves the whole state, flag and channel
    included, as it was. *)
Theorem C6_stop_when_idle (p : Platform) (s : System) :
  caller s = Ready ->
  IsRunning s = false ->
  step p CallStop s = Next s.
Proof.
  unfold IsRunning; intros Hc Hr; simpl; rewrite Hc.
  unfold Stop_locked; now rewrite Hr.
Qed.

Lemma C6_stop_when_idle_witness :
  caller initial = Ready /\ IsRunning initial = false /\
  step MSWindows CallStop initial = Next initial.
Proof.
  split; [reflexivity | split; [reflexivity|]].
  apply C6_stop_when_idle; reflexivity.
Defined.

End RunnerClaims.

(** ** The Start button *)

Section StartButton.
Context `{CaseTable} `{keybd_event}.
Local Open Scope list_scope.

Lemma TrimSpace_eqb (key : string) :
  (strings.TrimSpace key =? "")%string = blank key.
Proof.
  destruct (blank key) eqn:Hb.
  - apply String.eqb_eq, TrimSpace_empty, Hb.
  - apply String.eqb_neq; intros He.
    apply (proj1 (TrimSpace_empty _)) in He; congruence.
Qed.

Lemma skipped_not_usable (entry : KeyEntry) :
  negb (Enabled entry) || (IntervalMS entry <=? 0)%Z
  || (strings.TrimSpace (Key entry) =? "")%string = negb (usable entry).
Proof.
  rewrite TrimSpace_eqb; unfold usable.
  destruct (Enabled entry), (blank (Key entry)),
    (Z.leb_spec (IntervalMS entry) 0), (Z.ltb_spec 0 (IntervalMS entry));
    simpl; solve [reflexivity | lia].
Qed.

Lemma kept_usable (entry : KeyEntry) :
  Enabled entry && (0 <? IntervalMS entry)%Z
  && negb (strings.TrimSpace (Key entry) =? "")%string = usable entry.
Proof. now rewrite TrimSpace_eqb. Qed.

Section Loops.
Variable resolve : string -> KeyTask * option error.

Lemma resolvedTasks_cons (entry : KeyEntry) (entries : list KeyEntry) :
  resolvedTasks resolve (entry :: entries) =
  (if usable entry then
     match resolve (Key entry) with
     | (t, None) => [taskFor t entry]
     | (_, Some _) => []
     end
   else []) ++ resolvedTasks resolve entries.
Proof. reflexivity. Qed.

Lemma resolutionErrors_cons (entry : KeyEntry) (entries : list KeyEntry) :
  resolutionErrors resolve (entry :: entries) =
  (if usable entry then
     match resolve (Key entry) with
     | (_, None) => []
     | (_, Some err) => [err]
     end
   else []) ++ resolutionErrors resolve entries.
Proof. reflexivity. Qed.

(** What the two branches after the loop amount to. *)
Lemma after_loop (entries : list KeyEntry) (c : Clicked) :
  let tasks := resolvedTasks resolve entries in
  let errors := resolutionErrors resolve entries in
  started c = (if (List.length tasks =? 0)%nat then None else Some tasks) ->
  ((0 <? List.length errors)%nat = true ->
   exists d, In d (dialogs c) /\ message d = strings.Join errors newline) ->
  startsAndReports resolve entries c.
Proof.
  intros tasks errors Hst Hdl; unfold startsAndReports.
  fold tasks errors; split.
  - rewrite Hst; now destruct tasks.
  - destruct errors; [exact I | now apply Hdl].
Qed.
End Loops.

Lemma darwin_loop (entries : list KeyEntry) (tasks : list KeyTask)
    (errors : list string) :
  fold_left DarwinMain.loop_body entries (tasks, errors) =
  (tasks ++ resolvedTasks Darwin.parseMacInput entries,
   errors ++ resolutionErrors Darwin.parseMacInput entries).
Proof.
  revert tasks errors; induction entries as [|entry entries IH];
    intros tasks errors.
  - simpl; now rewrite !app_nil_r.
  - rewrite resolvedTasks_cons, resolutionErrors_cons.
    cbn [fold_left]; unfold DarwinMain.loop_body at 2.
    rewrite skipped_not_usable.
    destruct (usable entry); simpl; [|apply IH].
    destruct (Darwin.parseMacInput (Key entry)) as [t [err|]];
      rewrite IH; simpl; now rewrite <- app_assoc.
Qed.

Lemma enabled_loop (items acc : list KeyEntry) :
  fold_left
    (fun entries entry =>
       if Enabled entry && (0 <? IntervalMS entry)%Z
          && negb (strings.TrimSpace (Key entry) =? "")%string
       then entries ++ [entry] else entries)
    items acc
  = acc ++ List.filter usable items.
Proof.
  revert acc; induction items as [|entry items IH]; intros acc; simpl.
  - now rewrite app_nil_r.
  - rewrite IH, kept_usable.
    destruct (usable entry); [|reflexivity].
    now rewrite <- app_assoc.
Qed.

Lemma windows_loop (items : list KeyEntry) (tasks : list KeyTask)
    (errors : list string) :
  fold_left WindowsMain.loop_body (List.filter usable items) (tasks, errors) =
  (tasks ++ resolvedTasks Windows.parseKeyInput items,
   errors ++ resolutionErrors Windows.parseKeyInput items).
Proof.
  revert tasks errors; induction items as [|entry items IH];
    intros tasks errors.
  - simpl; now rewrite !app_nil_r.
  - rewrite resolvedTasks_cons, resolutionErrors_cons.
    cbn [List.filter].
    destruct (usable entry); simpl; [|apply IH].
    destruct (Windows.parseKeyInput (Key entry)) as [t [err|]];
      rewrite IH; simpl; now rewrite <- app_assoc.
Qed.

Lemma darwin_click (entries : list KeyEntry) :
  startsAndReports Darwin.parseMacInput entries
    (DarwinMain.startButton_OnClicked false entries).
Proof.
  unfold DarwinMain.startButton_OnClicked.
  rewrite darwin_loop; cbn [app].
  apply after_loop; cbv zeta;
    destruct (List.length (resolvedTasks _ entries) =? 0)%nat; simpl;
    try reflexivity; intros ->; eexists; split;
    try reflexivity; simpl; auto.
Qed.

Lemma windows_click (items : list KeyEntry) :
  startsAndReports Windows.parseKeyInput items
    (WindowsMain.startButton_OnClicked false items).
Proof.
  unfold WindowsMain.startButton_OnClicked, WindowsMain.EnabledEntries.
  rewrite enabled_loop; cbn [app]; cbv zeta.
  pose proof (windows_loop items [] []) as Hloop; cbn [app] in Hloop.
  destruct (List.filter usable items) as [|entry kept] eqn:Hk.
  - simpl in Hloop; injection Hloop as HT HE.
    unfold startsAndReports; rewrite <- HT, <- HE; now split.
  - change (List.length (entry :: kept) =? 0)%nat with false; cbv iota.
    rewrite Hloop; clear Hk Hloop.
    apply after_loop; cbv zeta;
      destruct (List.length (resolvedTasks _ items) =? 0)%nat; simpl;
      try reflexivity; intros Hpos; try rewrite Hpos; eexists; split;
      try reflexivity; simpl; auto.
Qed.

End StartButton.

(** ** The statements on examples *)

Lemma C1_single_character_is_unicode_witness :
  runes_of (strings.TrimSpace " a ") = [97%N] /\
  (@Darwin.parseMacInput plainCaseTable " a " = (KeyTask_unicode 97%N, None) /\
   @Windows.parseKeyInput sampleKeys plainCaseTable " a "
     = (KeyTask_unicode 97%N, None)).
Proof.
  split; [reflexivity|].
  apply (@C1_single_character_is_unicode plainCaseTable sampleKeys " a " 97%N).
  reflexivity.
Defined.

Lemma C7_named_key_codes_witness :
  In "ESCAPE" namedKeys /\
  multiCharacter " Escape " /\
  @equalIgnoreCase plainCaseTable (strings.TrimSpace " Escape ") "ESCAPE" /\
  ((exists mac win,
       codeOf macNamedKeyCodes "ESCAPE" = Some mac /\
       codeOf (@winNamedKeyCodes sampleKeys) "ESCAPE" = Some win /\
       @Darwin.parseMacInput plainCaseTable " Escape " = (KeyTask_code mac, None) /\
       @Windows.parseKeyInput sampleKeys plainCaseTable " Escape "
         = (KeyTask_code win, None)) /\
   (forall again, again = " Escape " ->
       @Darwin.parseMacInput plainCaseTable again
         = @Darwin.parseMacInput plainCaseTable " Escape " /\
       @Windows.parseKeyInput sampleKeys plainCaseTable again
         = @Windows.parseKeyInput sampleKeys plainCaseTable " Escape ")).
Proof.
  assert (Hin : In "ESCAPE" namedKeys) by (vm_compute; tauto).
  assert (Hm : multiCharacter " Escape ") by (vm_compute; lia).
  split; [exact Hin | split; [exact Hm | split; [reflexivity|]]].
  apply (@C7_named_key_codes plainCaseTable sampleKeys " Escape " "ESCAPE" Hin Hm).
  reflexivity.
Defined.

(** * Further properties of the code *)

(** ** The key tables of the macOS resolver *)

Section Tables.

Lemma all_bytes_complete (c : ascii) : In c all_bytes.
Proof.
  unfold all_bytes; rewrite <- (ascii_nat_embedding c).
  apply in_map, in_seq.
  pose proof (nat_ascii_bounded c); lia.
Qed.

Lemma for_all_bytes (P : ascii -> bool) :
  forallb P all_bytes = true -> forall c, P c = true.
Proof.
  intros Hall c.
  apply (proj1 (forallb_forall P all_bytes) Hall), all_bytes_complete.
Qed.

Lemma tableDomain_all : forallb tableDomain all_bytes = true.
Proof. vm_compute; reflexivity. Qed.

Lemma sameCodeSameByte_all :
  forallb (fun c1 => forallb (sameCodeSameByte c1) all_bytes) all_bytes = true.
Proof. vm_compute; reflexivity. Qed.

Lemma noNamedCode_all : forallb noNamedCode all_bytes = true.
Proof. vm_compute; reflexivity. Qed.

Lemma macByteCode_block (c : ascii) :
  Darwin.letterOrDigit (oneByte c) = option_map KeyTask_code (macByteCode c).
Proof.
  unfold Darwin.letterOrDigit, macByteCode, oneByte; simpl.
  destruct (Darwin.macLetterKeyCode c) as [code [|]]; [reflexivity|].
  destruct (Darwin.macDigitKeyCode c) as [code' [|]]; reflexivity.
Qed.

(** The letter and digit tables of macOS answer exactly for the bytes 'A' to
    'Z' and '0' to '9', and two bytes that get the same key code are the same
    byte. *)
Theorem mac_letter_digit_table (c1 c2 : ascii) :
  (isUpperOrDigit c1 = true <-> macByteCode c1 <> None) /\
  (forall code, macByteCode c1 = Some code -> macByteCode c2 = Some code ->
     c1 = c2) /\
  (forall code, macByteCode c1 = Some code ->
     Darwin.letterOrDigit (oneByte c1) = Some (KeyTask_code code)).
Proof.
  split; [|split].
  - pose proof (for_all_bytes _ tableDomain_all c1) as Hd.
    unfold tableDomain in Hd; apply Bool.eqb_prop in Hd; rewrite Hd.
    destruct (macByteCode c1); split; congruence.
  - intros code H1 H2.
    pose proof (for_all_bytes _ sameCodeSameByte_all c1) as Hp.
    pose proof (proj1 (forallb_forall _ _) Hp c2 (all_bytes_complete c2)) as Hq.
    unfold sameCodeSameByte in Hq; rewrite H1, H2, Z.eqb_refl in Hq.
    now apply Ascii.eqb_eq.
  - intros code H1; now rewrite macByteCode_block, H1.
Qed.

Lemma In_namedKeys_inv (P : string -> Prop) :
  P "SPACE" -> P "ENTER" -> P "ESC" -> P "ESCAPE" -> P "TAB" -> P "UP" ->
  P "DOWN" -> P "LEFT" -> P "RIGHT" -> P "F1" -> P "F2" -> P "F3" ->
  P "F4" -> P "F5" -> P "F6" -> P "F7" -> P "F8" -> P "F9" -> P "F10" ->
  P "F11" -> P "F12" ->
  forall name, In name namedKeys -> P name.
Proof.
  intros; cbv [namedKeys functionKeys app In] in *.
  repeat match goal with H : _ \/ _ |- _ => destruct H as [<- | H] end;
    solve [assumption | contradiction].
Qed.

Lemma mac_namedKey_known (key input : string) (t : KeyTask) :
  Darwin.namedKey key input = (t, None) -> In key namedKeys.
Proof.
  intros Hk.
  destruct (In_dec String.string_dec key namedKeys) as [Hin | Hnin];
    [assumption|].
  rewrite (mac_namedKey_miss key input Hnin) in Hk; discriminate.
Qed.

(** On macOS two named keys resolve to the same key code only when they are
    the same name or the two names of the escape key, and the code of a
    named key is never the code of a letter or of a digit. *)
Theorem mac_named_codes_distinct (k1 k2 input1 input2 : string) (t : KeyTask) :
  Darwin.namedKey k1 input1 = (t, None) ->
  Darwin.namedKey k2 input2 = (t, None) ->
  sameKeyName k1 k2 /\ forall c, macByteCode c <> Some (KeyCode t).
Proof.
  intros H1 H2.
  pose proof (mac_namedKey_known _ _ _ H1) as Hin1.
  pose proof (mac_namedKey_known _ _ _ H2) as Hin2.
  split.
  - revert H2; revert k2 Hin2.
    revert H1; revert k1 Hin1.
    unfold sameKeyName.
    apply (In_namedKeys_inv (fun k1 => Darwin.namedKey k1 input1 = (t, None) ->
      forall k2, In k2 namedKeys -> Darwin.namedKey k2 input2 = (t, None) ->
      k1 = k2 \/ (In k1 ["ESC"; "ESCAPE"] /\ In k2 ["ESC"; "ESCAPE"])));
      intros Hk1; vm_compute in Hk1; injection Hk1 as <-;
      apply (In_namedKeys_inv (fun k2 => Darwin.namedKey k2 input2 = (_, None) -> _));
      intros Hk2; vm_compute in Hk2;
      first [now left | right; simpl; tauto | congruence].
  - intros c Hc.
    pose proof (for_all_bytes _ noNamedCode_all c) as Hn.
    unfold noNamedCode in Hn; rewrite Hc in Hn.
    destruct (@namedKeys_codes sampleKeys k1 Hin1)
      as (mac & _ & Hmac & _ & Hd & _).
    rewrite Hd in H1; injection H1 as <-.
    change (KeyCode (KeyTask_code mac)) with mac in Hn.
    assert (Hm : In (k1, mac) macNamedKeyCodes).
    { clear -Hmac; revert Hmac; generalize macNamedKeyCodes as tbl.
      induction tbl as [|[n code] tbl IH]; simpl; [discriminate|].
      destruct (String.eqb_spec k1 n) as [-> | _]; [intros [= ->]; now left|].
      intros Hc; right; now apply IH. }
    apply (proj1 (forallb_forall _ _) Hn) in Hm; simpl in Hm.
    rewrite Z.eqb_refl in Hm; discriminate.
Qed.

Lemma mac_named_codes_distinct_witness :
  Darwin.namedKey "ESC" "esc" = (KeyTask_code 53, None) /\
  Darwin.namedKey "ESCAPE" " Escape" = (KeyTask_code 53, None) /\
  (sameKeyName "ESC" "ESCAPE" /\
   forall c, macByteCode c <> Some (KeyCode (KeyTask_code 53))).
Proof.
  split; [reflexivity | split; [reflexivity|]].
  apply (mac_named_codes_distinct "ESC" "ESCAPE" "esc" " Escape");
    reflexivity.
Defined.

End Tables.

(** ** What the resolvers return *)

Section ResolverResults.
Context `{CaseTable} `{keybd_event}.

Lemma functionKeys_mem (key : string) :
  existsb (String.eqb key) functionKeys = true -> In key functionKeys.
Proof.
  intros He; apply existsb_exists in He as (n & Hin & Heq).
  apply String.eqb_eq in Heq; now subst.
Qed.

(** [macFunctionKeyCode] fails exactly outside F1 to F12; whenever the final
    switch of [parseMacInput] fails, its error is the one of the default
    case, which quotes the input as typed: the error return after the call
    of [macFunctionKeyCode] is never taken. *)
Theorem mac_function_keys (key : string) :
  (snd (Darwin.macFunctionKeyCode key) = None <-> In key functionKeys) /\
  (forall input err, snd (Darwin.namedKey key input) = Some err ->
     err = "unsupported key: " ++ input).
Proof.
  split; [split|].
  - intros Hk.
    destruct (In_dec String.string_dec key functionKeys) as [Hin | Hnin];
      [assumption | exfalso].
    unfold Darwin.macFunctionKeyCode in Hk.
    repeat match type of Hk with
    | context [(?k =? ?n)%string] =>
      rewrite (proj2 (String.eqb_neq k n)) in Hk
        by (intros ->; apply Hnin, functionKeys_mem; reflexivity)
    end.
    discriminate.
  - intros Hin; cbv [functionKeys In] in Hin.
    repeat (destruct Hin as [<- | Hin]); solve [reflexivity | contradiction].
  - intros input err Hk.
    destruct (In_dec String.string_dec key namedKeys) as [Hin | Hnin].
    + destruct (namedKeys_codes key Hin) as (mac & _ & _ & _ & Hd & _).
      rewrite Hd in Hk; discriminate.
    + rewrite (mac_namedKey_miss key input Hnin) in Hk.
      now injection Hk as <-.
Qed.

(** The three ways a resolution goes, whatever the table of named keys. *)
Lemma resolve_cases (input : string) :
  (blank input = true /\
   forall named, resolveWithoutLetters named input = (KeyTask_zero, Some "empty key")) \/
  (blank input = false /\
   exists r, runes_of (strings.TrimSpace input) = [r] /\
     forall named, resolveWithoutLetters named input = (KeyTask_unicode r, None)) \/
  (blank input = false /\ multiCharacter input /\
   forall named, resolveWithoutLetters named input =
     named (strings.ToUpper (strings.TrimSpace input)) input).
Proof.
  destruct (blank input) eqn:Hb.
  - left; split; [reflexivity|]; intros named; now apply resolve_blank.
  - right.
    destruct (runes_of (strings.TrimSpace input)) as [|r [|r' l]] eqn:Hr.
    + apply (proj1 (runes_of_empty _)) in Hr.
      apply (proj1 (TrimSpace_empty _)) in Hr; congruence.
    + left; split; [reflexivity|]; exists r; split; [reflexivity|].
      intros named; now apply resolve_single.
    + right; split; [reflexivity|].
      assert (Hm : multiCharacter input)
        by (unfold multiCharacter; rewrite Hr; simpl; lia).
      split; [assumption|]; intros named; now apply resolve_multi.
Qed.

Lemma named_outcomes (key input : string) :
  (In key namedKeys /\
   exists mac win,
     codeOf macNamedKeyCodes key = Some mac /\
     codeOf winNamedKeyCodes key = Some win /\
     Darwin.namedKey key input = (KeyTask_code mac, None) /\
     Windows.namedKey key input = (KeyTask_code win, None)) \/
  (~ In key namedKeys /\
   Darwin.namedKey key input = (KeyTask_zero, Some ("unsupported key: " ++ input)) /\
   Windows.namedKey key input = (KeyTask_zero, Some ("unsupported key: " ++ input))).
Proof.
  destruct (In_dec String.string_dec key namedKeys) as [Hin | Hnin].
  - left; split; [assumption|].
    destruct (namedKeys_codes key Hin) as (mac & win & Hm & Hw & Hd & Hk).
    exists mac, win; auto.
  - right; split; [assumption|].
    split; [now apply mac_namedKey_miss | now apply win_namedKey_miss].
Qed.

(** A resolution that fails returns the zero task, on both platforms alike,
    with the message "empty key" for a blank input and otherwise
    "unsupported key: " followed by the input as typed (not trimmed, not
    upper-cased). *)
Theorem resolution_errors (input : string) (err : error) :
  snd (Darwin.parseMacInput input) = Some err \/
  snd (Windows.parseKeyInput input) = Some err ->
  err = (if blank input then "empty key" else "unsupported key: " ++ input) /\
  Darwin.parseMacInput input = (KeyTask_zero, Some err) /\
  Windows.parseKeyInput input = (KeyTask_zero, Some err).
Proof.
  rewrite parseMacInput_rules, parseKeyInput_rules.
  destruct (resolve_cases input)
    as [(Hb & Hr) | [(Hb & r & _ & Hr) | (Hb & _ & Hr)]];
    rewrite !Hr, Hb; simpl.
  - intros [[= <-] | [= <-]]; auto.
  - intros [? | ?]; discriminate.
  - destruct (named_outcomes (strings.ToUpper (strings.TrimSpace input)) input)
      as [(_ & mac & win & _ & _ & Hd & Hw) | (_ & Hd & Hw)];
      rewrite Hd, Hw; simpl.
    + intros [? | ?]; discriminate.
    + intros [[= <-] | [= <-]]; auto.
Qed.

(** The two resolvers accept the same inputs: they return the same error or
    none, agree on whether the target is a Unicode rune and on the rune, and
    leave the interval zero. *)
Theorem resolvers_agree (input : string) :
  snd (Darwin.parseMacInput input) = snd (Windows.parseKeyInput input) /\
  UseUnicode (fst (Darwin.parseMacInput input))
    = UseUnicode (fst (Windows.parseKeyInput input)) /\
  UnicodeRune (fst (Darwin.parseMacInput input))
    = UnicodeRune (fst (Windows.parseKeyInput input)) /\
  Interval (fst (Darwin.parseMacInput input)) = 0%Z /\
  Interval (fst (Windows.parseKeyInput input)) = 0%Z.
Proof.
  rewrite parseMacInput_rules, parseKeyInput_rules.
  destruct (resolve_cases input)
    as [(Hb & Hr) | [(Hb & r & _ & Hr) | (Hb & _ & Hr)]];
    rewrite !Hr; simpl; auto.
  destruct (named_outcomes (strings.ToUpper (strings.TrimSpace input)) input)
    as [(_ & mac & win & _ & _ & Hd & Hw) | (_ & Hd & Hw)];
    rewrite Hd, Hw; simpl; auto.
Qed.

(** A resolution that succeeds is either rule 1 (the trimmed input is the
    single rune of the task, which is a Unicode target) or a named key: the
    trimmed input has several characters, equals a named key up to case, and
    the task is the key-code task of that name on each platform.  No other
    task is ever produced. *)
Theorem resolution_sound (input : string) (tm tw : KeyTask) :
  Darwin.parseMacInput input = (tm, None) ->
  Windows.parseKeyInput input = (tw, None) ->
  (runes_of (strings.TrimSpace input) = [UnicodeRune tm] /\
   tm = KeyTask_unicode (UnicodeRune tm) /\ tw = tm) \/
  (multiCharacter input /\
   exists name mac win,
     In name namedKeys /\
     equalIgnoreCase (strings.TrimSpace input) name /\
     codeOf macNamedKeyCodes name = Some mac /\
     codeOf winNamedKeyCodes name = Some win /\
     tm = KeyTask_code mac /\ tw = KeyTask_code win).
Proof.
  rewrite parseMacInput_rules, parseKeyInput_rules.
  destruct (resolve_cases input)
    as [(Hb & Hr) | [(Hb & r & Hrunes & Hr) | (Hb & Hm & Hr)]];
    rewrite !Hr.
  - discriminate.
  - intros [= <-] [= <-]; left; simpl; auto.
  - destruct (named_outcomes (strings.ToUpper (strings.TrimSpace input)) input)
      as [(Hin & mac & win & Hcm & Hcw & Hd & Hw) | (_ & Hd & Hw)];
      rewrite Hd, Hw; [|discriminate].
    intros [= <-] [= <-]; right; split; [assumption|].
    exists (strings.ToUpper (strings.TrimSpace input)), mac, win.
    repeat split; try assumption.
    unfold equalIgnoreCase; now rewrite (namedKeys_upper _ Hin).
Qed.

End ResolverResults.

Lemma resolution_errors_witness :
  (snd (@Darwin.parseMacInput plainCaseTable " f13 ") = Some "unsupported key:  f13 " \/
   snd (@Windows.parseKeyInput sampleKeys plainCaseTable " f13 ")
     = Some "unsupported key:  f13 ") /\
  ("unsupported key:  f13 "
     = (if blank " f13 " then "empty key" else "unsupported key: " ++ " f13 ") /\
   @Darwin.parseMacInput plainCaseTable " f13 "
     = (KeyTask_zero, Some "unsupported key:  f13 ") /\
   @Windows.parseKeyInput sampleKeys plainCaseTable " f13 "
     = (KeyTask_zero, Some "unsupported key:  f13 ")).
Proof.
  split; [left; reflexivity|].
  apply (@resolution_errors plainCaseTable sampleKeys " f13 ").
  left; reflexivity.
Defined.

Lemma resolution_sound_witness :
  @Darwin.parseMacInput plainCaseTable "tab" = (KeyTask_code 48, None) /\
  @Windows.parseKeyInput sampleKeys plainCaseTable "tab" = (KeyTask_code 15, None) /\
  ((runes_of (strings.TrimSpace "tab") = [UnicodeRune (KeyTask_code 48)] /\
    KeyTask_code 48 = KeyTask_unicode (UnicodeRune (KeyTask_code 48)) /\
    KeyTask_code 15 = KeyTask_code 48) \/
   (multiCharacter "tab" /\
    exists name mac win,
      In name namedKeys /\
      @equalIgnoreCase plainCaseTable (strings.TrimSpace "tab") name /\
      codeOf macNamedKeyCodes name = Some mac /\
      codeOf (@winNamedKeyCodes sampleKeys) name = Some win /\
      KeyTask_code 48 = KeyTask_code mac /\ KeyTask_code 15 = KeyTask_code win)).
Proof.
  split; [reflexivity | split; [reflexivity|]].
  apply (@resolution_sound plainCaseTable sampleKeys "tab"); reflexivity.
Defined.

(** ** Panics, the log and the return of Stop *)

Section RunnerSafety.
Local Open Scope list_scope.

Lemma run_snoc (p : Platform) (trace : list Label) (l : Label) (s : System) :
  run p (trace ++ [l]) s =
  match run p trace s with
  | Some s1 =>
    match step p l s1 with
    | Next s' => Some s'
    | Blocked | Panic => None
    end
  | None => None
  end.
Proof.
  revert s; induction trace as [|l0 trace IH]; intros s; simpl.
  - now destruct (step p l s).
  - destruct (step p l0 s); [apply IH | reflexivity | reflexivity].
Qed.

Lemma in_phase_panic (ph : Phase) (i : nat) (s : System)
    (k : Executor -> Outcome) :
  in_phase ph i s k = Panic ->
  exists e, executors s !! i = Some e /\ phase e = ph /\
            ph <> Exited /\ k e = Panic.
Proof.
  unfold in_phase; intros Hk.
  destruct (executors s !! i) as [e|]; [|discriminate].
  exists e; destruct (phase e), ph; try discriminate; repeat split;
    solve [assumption | discriminate].
Qed.

Lemma aliveCount_lookup (l : list Executor) (i : nat) (e : Executor) :
  l !! i = Some e -> phase e <> Exited -> (1 <= aliveCount l)%Z.
Proof.
  intros Hi Hph.
  pose proof (aliveCount_insert l i e {| task := task e; phase := Exited |} Hi) as Hc.
  pose proof (aliveCount_nonneg (<[i := {| task := task e; phase := Exited |}]> l)).
  unfold alive in Hc; simpl in Hc.
  destruct (phase e); try contradiction; lia.
Qed.

Lemma exit_safe (i : nat) (e : Executor) (s : System) :
  consistent s -> executors s !! i = Some e -> phase e <> Exited ->
  exit i e s <> Panic.
Proof.
  intros [_ Hwg _ _ _] Hi Hph; unfold exit.
  pose proof (aliveCount_lookup _ _ _ Hi Hph).
  destruct (Z.ltb_spec (wg (runner s) - 1) 0); [lia | discriminate].
Qed.

Lemma panic_cause (p : Platform) (s : System) (l : Label) :
  consistent s ->
  step p l s = Panic ->
  exists i e,
    l = Setup i /\ executors s !! i = Some e /\ phase e = Launched /\
    (Interval (task e) <= 0)%Z.
Proof.
  intros Hc Hp.
  destruct l; simpl in Hp.
  - destruct (caller s); discriminate.
  - destruct (caller s) as [|[|t rest]|]; discriminate.
  - destruct (caller s) as [|[|t rest]|]; discriminate.
  - destruct (caller s); try discriminate.
    unfold Stop_locked in Hp.
    destruct (running (runner s)) eqn:Hrun; simpl in Hp; [|discriminate].
    apply (proj1 (flag_channel s Hc)) in Hrun; rewrite Hrun in Hp; discriminate.
  - destruct (caller s); try discriminate.
    unfold Stop_wait in Hp; destruct (_ =? _)%Z; discriminate.
  - apply in_phase_panic in Hp as (e & Hi & Hph & _ & Hk).
    exists i, e; repeat split; try assumption.
    unfold runTask_setup in Hk.
    destruct (Z.ltb_spec 0 (Interval (task e))); [discriminate | assumption].
  - apply in_phase_panic in Hp as (e & Hi & Hph & Hne & Hk).
    unfold runTask_bonding_failed in Hk.
    destruct p; [discriminate|].
    destruct (UseUnicode (task e)); [discriminate|].
    exfalso; eapply exit_safe; try eassumption; congruence.
  - apply in_phase_panic in Hp as (e & _ & _ & _ & Hk); discriminate.
  - apply in_phase_panic in Hp as (e & Hi & Hph & Hne & Hk).
    unfold runTask_cancel in Hk.
    destruct (stopCh (runner s)); try discriminate.
    exfalso; eapply exit_safe; try eassumption; congruence.
Qed.

(** In every state of every run, the only step that can panic is the making
    of the ticker of an executor whose interval is not positive: [Stop] never
    closes a nil or closed channel, and the WaitGroup counter never goes
    negative. *)
Theorem only_ticker_panics (p : Platform) (trace : list Label) (s : System)
    (l : Label) :
  run p trace initial = Some s ->
  step p l s = Panic ->
  exists i e,
    l = Setup i /\ executors s !! i = Some e /\ phase e = Launched /\
    (Interval (task e) <= 0)%Z.
Proof.
  intros Hr Hp; eapply panic_cause; [|eassumption].
  eapply run_consistent; [apply initial_consistent | eassumption].
Qed.

Lemma only_ticker_panics_witness :
  exists s,
    run MacOS [CallStart [KeyTask_code 49]; Spawn] initial = Some s /\
    step MacOS (Setup 0) s = Panic /\
    exists i e,
      Setup 0 = Setup i /\ executors s !! i = Some e /\ phase e = Launched /\
      (Interval (task e) <= 0)%Z.
Proof.
  eexists; split; [reflexivity | split; [reflexivity|]].
  apply (only_ticker_panics MacOS [CallStart [KeyTask_code 49]; Spawn]);
    reflexivity.
Defined.

Lemma step_has_shape (p : Platform) (l : Label) (s s' : System) :
  step p l s = Next s' -> step_shape l s s'.
Proof.
  intros Hs.
  pose proof (step_executor _ _ _ _ Hs) as He.
  assert (Hex : forall i, executor_step p i s s' -> step_shape l s s').
  { intros i [e Hi Hph -> | e Hi Hph -> | e Hi Hph ->].
    - now apply shape_phase with i e Selecting.
    - now apply shape_phase with i e Exited.
    - now apply shape_tick with i e. }
  destruct l; try (now apply (Hex i)); clear He Hex; simpl in Hs.
  - destruct (caller s) eqn:Hc; try discriminate; injection Hs as <-.
    unfold Start_locked; destruct (running (runner s)).
    + apply shape_caller; auto.
    + apply shape_caller; simpl; auto.
      intros rest [= ->]; auto.
  - destruct (caller s) as [|[|t rest]|] eqn:Hc; try discriminate.
    injection Hs as <-; now apply shape_spawn with t rest.
  - destruct (caller s) as [|[|t rest]|]; try discriminate.
    injection Hs as <-; apply shape_caller; simpl; auto; discriminate.
  - destruct (caller s) eqn:Hc; try discriminate; unfold Stop_locked in Hs.
    destruct (running (runner s)); simpl in Hs;
      [|injection Hs as <-; apply shape_caller; auto].
    destruct (stopCh (runner s)); try discriminate.
    injection Hs as <-; apply shape_caller; simpl; auto; discriminate.
  - destruct (caller s); try discriminate; unfold Stop_wait in Hs.
    destruct (_ =? _)%Z; try discriminate.
    injection Hs as <-; apply shape_caller; simpl; auto; discriminate.
Qed.

(** Where the executors, the pending tasks and the log of a run come
    from. *)
Lemma run_history (p : Platform) (trace : list Label) (s : System) :
  run p trace initial = Some s ->
  (forall i e, executors s !! i = Some e ->
     exists tasks, In (CallStart tasks) trace /\ In (task e) tasks) /\
  (forall rest, caller s = Spawning rest ->
     exists tasks, In (CallStart tasks) trace /\ incl rest tasks) /\
  (forall i ev, In (i, ev) (injected s) ->
     exists e, executors s !! i = Some e /\ ev = injection (task e)).
Proof.
  revert s; induction trace as [|l trace IH] using rev_ind; intros s Hr.
  - injection Hr as <-; simpl; repeat split.
    + intros i e Hi; rewrite lookup_nil in Hi; discriminate.
    + discriminate.
    + contradiction.
  - rewrite run_snoc in Hr.
    destruct (run p trace initial) as [s1|] eqn:Hr1; [|discriminate].
    destruct (step p l s1) as [s2| |] eqn:Hs; try discriminate.
    injection Hr as ->.
    destruct (IH s1 eq_refl) as (Hex & Hsp & Hlog); clear IH.
    assert (Hmore : forall tasks, In (CallStart tasks) trace ->
              In (CallStart tasks) (trace ++ [l]))
      by (intros; apply in_or_app; now left).
    destruct (step_has_shape _ _ _ _ Hs)
      as [He Hi Hc | t rest -> Hc Hc' He Hi | i e ph Hl Hc He Hi
          | i e Hl Hph Hc He Hi].
    + rewrite He, Hi; repeat split; try assumption.
      * intros j x Hj; destruct (Hex j x Hj) as (tasks & ? & ?); eauto.
      * intros rest Hrest.
        destruct (Hc rest Hrest) as [Hold | [-> | (t & Hold)]].
        -- destruct (Hsp rest Hold) as (tasks & ? & ?); eauto.
        -- exists rest; split; [apply in_or_app; right; now left|].
           apply incl_refl.
        -- destruct (Hsp _ Hold) as (tasks & ? & Hincl).
           exists tasks; split; [auto|].
           intros x Hx; apply Hincl; now right.
    + destruct (Hsp _ Hc) as (tasks & Hin & Hincl).
      rewrite He, Hi, Hc'; repeat split.
      * intros j x Hj.
        apply lookup_app_Some in Hj as [Hj | (_ & Hj)].
        -- destruct (Hex j x Hj) as (tasks' & ? & ?); eauto.
        -- apply list_lookup_singleton_Some in Hj as (_ & <-); simpl.
           exists tasks; split; [auto|]; apply Hincl; now left.
      * intros rest' [= <-].
        exists tasks; split; [auto|].
        intros x Hx; apply Hincl; now right.
      * intros j ev Hj; destruct (Hlog j ev Hj) as (x & Hx & ->).
        exists x; split; [now apply lookup_app_l_Some | reflexivity].
    + rewrite He, Hi, Hc; repeat split.
      * intros j x Hj.
        destruct (decide (i = j)) as [<- | Hne].
        -- rewrite list_lookup_insert_eq in Hj by (eapply lookup_lt_Some, Hl).
           injection Hj as <-; simpl.
           destruct (Hex i e Hl) as (tasks & ? & ?); eauto.
        -- rewrite list_lookup_insert_ne in Hj by assumption.
           destruct (Hex j x Hj) as (tasks & ? & ?); eauto.
      * intros rest Hrest; destruct (Hsp rest Hrest) as (tasks & ? & ?); eauto.
      * intros j ev Hj; destruct (Hlog j ev Hj) as (x & Hx & ->).
        destruct (decide (i = j)) as [<- | Hne].
        -- rewrite list_lookup_insert_eq by (eapply lookup_lt_Some, Hl).
           eexists; split; [reflexivity|]; simpl; congruence.
        -- rewrite list_lookup_insert_ne by assumption; eauto.
    + rewrite He, Hi, Hc; repeat split.
      * intros j x Hj; destruct (Hex j x Hj) as (tasks & ? & ?); eauto.
      * intros rest Hrest; destruct (Hsp rest Hrest) as (tasks & ? & ?); eauto.
      * intros j ev Hj; apply in_app_or in Hj as [Hj | [[= <- <-] | []]];
          [now apply Hlog | eauto].
Qed.

(** Every injection of a run is the injection of the task of the executor
    that made it, and that task was handed to the Runner by a call of
    [Start] of the run: the Runner injects nothing it was not asked to. *)
Theorem injections_are_requested (p : Platform) (trace : list Label)
    (s : System) (i : nat) (ev : Injection) :
  run p trace initial = Some s ->
  In (i, ev) (injected s) ->
  exists e tasks,
    executors s !! i = Some e /\ ev = injection (task e) /\
    In (CallStart tasks) trace /\ In (task e) tasks.
Proof.
  intros Hr Hin.
  destruct (run_history p trace s Hr) as (Hex & _ & Hlog).
  destruct (Hlog i ev Hin) as (e & Hi & ->).
  destruct (Hex i e Hi) as (tasks & ? & ?).
  now exists e, tasks.
Qed.

Lemma injections_are_requested_witness :
  exists s,
    run MacOS sampleStopped initial = Some s /\
    In (0%nat, InjectUnicode 97%N) (injected s) /\
    exists e tasks,
      executors s !! 0%nat = Some e /\
      InjectUnicode 97%N = injection (task e) /\
      In (CallStart tasks) sampleStopped /\ In (task e) tasks.
Proof.
  eexists; split; [reflexivity | split; [now left|]].
  apply (injections_are_requested MacOS sampleStopped); [reflexivity | now left].
Defined.

Lemma run_positive (p : Platform) (trace : list Label) (s : System) :
  Forall positiveLabel trace ->
  run p trace initial = Some s ->
  Forall (fun e => positiveInterval (task e)) (executors s).
Proof.
  intros Hpos Hr; apply Forall_lookup; intros i e Hi.
  destruct (run_history p trace s Hr) as (Hex & _ & _).
  destruct (Hex i e Hi) as (tasks & Hin & Ht).
  rewrite Forall_forall in Hpos.
  specialize (Hpos (CallStart tasks)); simpl in Hpos.
  rewrite Forall_forall in Hpos; apply Hpos; [|now apply list_elem_of_In].
  now apply list_elem_of_In.
Qed.

(** A run in which every call of [Start] is given tasks with positive
    intervals never panics, whatever the interleaving. *)
Theorem positive_intervals_never_panic (p : Platform) (trace : list Label)
    (s : System) (l : Label) :
  Forall positiveLabel trace ->
  run p trace initial = Some s ->
  step p l s <> Panic.
Proof.
  intros Hpos Hr Hp.
  assert (Hc : consistent s)
    by (eapply run_consistent; [apply initial_consistent | eassumption]).
  destruct (panic_cause p s l Hc Hp) as (i & e & _ & Hi & _ & Hle).
  pose proof (run_positive p trace s Hpos Hr) as Hall.
  rewrite Forall_lookup in Hall; specialize (Hall i e Hi).
  unfold positiveInterval in Hall; lia.
Qed.

Lemma positive_intervals_never_panic_witness :
  exists s,
    Forall positiveLabel sampleStopping /\
    run MacOS sampleStopping initial = Some s /\
    step MacOS (Cancel 0) s <> Panic.
Proof.
  assert (Hpos : Forall positiveLabel sampleStopping).
  { unfold sampleStopping; repeat constructor. }
  eexists; split; [exact Hpos | split; [reflexivity|]].
  apply (positive_intervals_never_panic MacOS sampleStopping); [exact Hpos | reflexivity].
Defined.
End RunnerSafety.

Section RunnerProgress.
Local Open Scope list_scope.

Lemma run_app (p : Platform) (t1 t2 : list Label) (s : System) :
  run p (t1 ++ t2) s =
  match run p t1 s with
  | Some s1 => run p t2 s1
  | None => None
  end.
Proof.
  revert s; induction t1 as [|l t1 IH]; intros s; simpl; [reflexivity|].
  destruct (step p l s); [apply IH | reflexivity | reflexivity].
Qed.

(** While the caller waits in [Stop], the channel stays closed. *)
Lemma step_waiting (p : Platform) (l : Label) (s s' : System) :
  step p l s = Next s' ->
  (caller s = Waiting -> stopCh (runner s) = ChanClosed) ->
  caller s' = Waiting -> stopCh (runner s') = ChanClosed.
Proof.
  intros Hs Hinv Hw.
  pose proof (step_executor _ _ _ _ Hs) as He.
  assert (Hex : forall i, executor_step p i s s' ->
                          stopCh (runner s') = ChanClosed).
  { intros i [e Hi Hph Heq | e Hi Hph Heq | e Hi Hph Heq];
      rewrite Heq in Hw |- *; simpl in *; now apply Hinv. }
  destruct l; try (now apply (Hex i)); clear He Hex; simpl in Hs.
  - destruct (caller s) eqn:Hc; try discriminate; injection Hs as <-.
    unfold Start_locked in Hw; destruct (running (runner s)); simpl in Hw;
      congruence.
  - destruct (caller s) as [|[|t rest]|]; try discriminate.
    injection Hs as <-; discriminate.
  - destruct (caller s) as [|[|t rest]|]; try discriminate.
    injection Hs as <-; discriminate.
  - destruct (caller s) eqn:Hc; try discriminate; unfold Stop_locked in Hs.
    destruct (running (runner s)); simpl in Hs;
      [|injection Hs as <-; congruence].
    destruct (stopCh (runner s)); try discriminate.
    now injection Hs as <-.
  - destruct (caller s); try discriminate; unfold Stop_wait in Hs.
    destruct (_ =? _)%Z; try discriminate.
    injection Hs as <-; discriminate.
Qed.

Lemma run_waiting (p : Platform) (trace : list Label) (s : System) :
  run p trace initial = Some s ->
  caller s = Waiting -> stopCh (runner s) = ChanClosed.
Proof.
  revert s; induction trace as [|l trace IH] using rev_ind; intros s Hr.
  - injection Hr as <-; discriminate.
  - rewrite run_snoc in Hr.
    destruct (run p trace initial) as [s1|] eqn:Hr1; [|discriminate].
    destruct (step p l s1) as [s2| |] eqn:Hs; try discriminate.
    injection Hr as ->.
    eapply step_waiting; [eassumption | now apply IH].
Qed.

Lemma lookup_middle (pre rest : list Executor) (e : Executor) :
  (pre ++ e :: rest) !! List.length pre = Some e.
Proof. induction pre; simpl; auto. Qed.

Lemma insert_middle (pre rest : list Executor) (e x : Executor) :
  <[List.length pre := x]> (pre ++ e :: rest) = pre ++ x :: rest.
Proof. induction pre; simpl; [reflexivity | now f_equal]. Qed.

Lemma step_setup_ok (p : Platform) (i : nat) (e : Executor) (s : System) :
  executors s !! i = Some e -> phase e = Launched ->
  positiveInterval (task e) ->
  step p (Setup i) s = Next (set_phase i e Selecting s).
Proof.
  intros Hi Hph Hpos; simpl; unfold in_phase; rewrite Hi, Hph.
  unfold runTask_setup.
  destruct (Z.ltb_spec 0 (Interval (task e))); [reflexivity|].
  unfold positiveInterval in Hpos; lia.
Qed.

Lemma step_cancel_ok (p : Platform) (i : nat) (e : Executor) (s : System) :
  executors s !! i = Some e -> phase e = Selecting ->
  stopCh (runner s) = ChanClosed -> (1 <= wg (runner s))%Z ->
  step p (Cancel i) s =
  Next (with_runner {| stopCh := stopCh (runner s);
                       wg := (wg (runner s) - 1)%Z;
                       running := running (runner s) |}
          (set_phase i e Exited s)).
Proof.
  intros Hi Hph Hch Hwg; simpl; unfold in_phase; rewrite Hi, Hph.
  unfold runTask_cancel, exit; rewrite Hch.
  destruct (Z.ltb_spec (wg (runner s) - 1) 0); [lia | reflexivity].
Qed.

(** The executors from position [length pre] on can all be led to return
    once the channel is closed, without any injection. *)
Lemma run_drain (p : Platform) (l pre : list Executor) (s : System) :
  stopCh (runner s) = ChanClosed ->
  executors s = pre ++ l ->
  Forall (fun e => positiveInterval (task e)) l ->
  (aliveCount l <= wg (runner s))%Z ->
  run p (drain (List.length pre) l) s =
  Some {| runner := {| stopCh := ChanClosed;
                       wg := (wg (runner s) - aliveCount l)%Z;
                       running := running (runner s) |};
          caller := caller s;
          executors := pre ++ returned l;
          injected := injected s |}.
Proof.
  revert pre s; induction l as [|e l IH]; intros pre s Hch Hex Hpos Hwg.
  - simpl; destruct s as [[ch n r] c ex inj]; simpl in *; subst.
    do 3 f_equal; lia.
  - apply Forall_cons in Hpos as [Hpe Hpos].
    pose proof (aliveCount_nonneg l) as Hnn.
    assert (Hlen : List.length (pre ++ [{| task := task e; phase := Exited |}])
                   = S (List.length pre))
      by (rewrite length_app; simpl; lia).
    assert (Hfinal : forall s2,
      stopCh (runner s2) = ChanClosed ->
      executors s2 = (pre ++ [{| task := task e; phase := Exited |}]) ++ l ->
      (wg (runner s2) = wg (runner s) - (if alive e then 1 else 0))%Z ->
      running (runner s2) = running (runner s) ->
      caller s2 = caller s -> injected s2 = injected s ->
      run p (drain (S (List.length pre)) l) s2 =
      Some {| runner := {| stopCh := ChanClosed;
                           wg := (wg (runner s) - aliveCount (e :: l))%Z;
                           running := running (runner s) |};
              caller := caller s;
              executors := pre ++ returned (e :: l);
              injected := injected s |}).
    { intros s2 H1 H2 H3 H4 H5 H6.
      rewrite <- Hlen, (IH _ s2 H1 H2 Hpos) by (simpl in Hwg; lia).
      rewrite H3, H4, H5, H6, <- app_assoc; simpl.
      do 3 f_equal; lia. }
    simpl drain; simpl in Hwg; unfold alive in *.
    destruct (phase e) eqn:Hph.
    + (* Launched: the ticker is made, then the closed channel is seen *)
      cbn [app run].
      rewrite (step_setup_ok p _ e s) by (rewrite ?Hex; auto using lookup_middle).
      rewrite (step_cancel_ok p _ {| task := task e; phase := Selecting |})
        by (simpl; rewrite ?Hex, ?insert_middle; auto using lookup_middle; lia).
      apply Hfinal; simpl; try reflexivity; try assumption.
      now rewrite Hex, !insert_middle, <- app_assoc.
    + (* Selecting: the closed channel is seen *)
      cbn [app run].
      rewrite (step_cancel_ok p _ e s)
        by (rewrite ?Hex; auto using lookup_middle; lia).
      apply Hfinal; simpl; try reflexivity; try assumption.
      now rewrite Hex, insert_middle, <- app_assoc.
    + (* Exited already *)
      cbn [app].
      apply Hfinal; try reflexivity; try assumption; try lia.
      rewrite Hex, <- app_assoc; simpl.
      destruct e as [t ph]; simpl in *; now subst.
Qed.

Lemma returned_exited (l : list Executor) :
  Forall (fun e => phase e = Exited) (returned l).
Proof. induction l; simpl; constructor; auto. Qed.

Lemma aliveCount_returned (l : list Executor) : aliveCount (returned l) = 0%Z.
Proof. apply aliveCount_zero, returned_exited. Qed.

(** [Stop] can always return: in a run whose tasks have positive intervals,
    whenever the caller waits in [Stop] the executors can be scheduled so
    that each one observes the closed channel and returns, after which
    [Stop] returns with the Runner idle; no injection is needed on the
    way. *)
Theorem stop_can_return (p : Platform) (trace : list Label) (s : System) :
  Forall positiveLabel trace ->
  run p trace initial = Some s ->
  caller s = Waiting ->
  exists s',
    run p (drain 0 (executors s) ++ [ReturnStop]) s = Some s' /\
    caller s' = Ready /\ IsRunning s' = false /\ allExited s' /\
    injected s' = injected s.
Proof.
  intros Hpos Hr Hw.
  pose proof (run_consistent p trace initial s initial_consistent Hr)
    as [_ Hwg _ _ Hwt].
  pose proof (run_waiting p trace s Hr Hw) as Hch.
  pose proof (run_positive p trace s Hpos Hr) as Hall.
  rewrite run_app.
  pose proof (run_drain p (executors s) [] s Hch eq_refl Hall) as Hd.
  cbn [List.length app] in Hd; rewrite Hd by lia; clear Hd.
  cbn [run step caller]; rewrite Hw.
  unfold Stop_wait; cbn [runner wg].
  rewrite Hwg, Z.sub_diag; cbn [Z.eqb].
  eexists; split; [reflexivity|]; simpl.
  repeat split; [now apply Hwt | apply returned_exited].
Qed.

Lemma stop_can_return_witness :
  exists s s',
    Forall positiveLabel sampleStopping /\
    run MacOS sampleStopping initial = Some s /\
    caller s = Waiting /\
    run MacOS (drain 0 (executors s) ++ [ReturnStop]) s = Some s' /\
    caller s' = Ready /\ IsRunning s' = false /\ allExited s' /\
    injected s' = injected s.
Proof.
  assert (Hpos : Forall positiveLabel sampleStopping).
  { unfold sampleStopping; repeat constructor. }
  destruct (stop_can_return MacOS sampleStopping _ Hpos eq_refl eq_refl)
    as (s' & Hs').
  eexists _, s'; split; [exact Hpos | split; [reflexivity | split; [reflexivity|]]].
  exact Hs'.
Defined.

End RunnerProgress.

(** ** Cancellation *)

Section Cancellation.
Local Open Scope list_scope.

(** C4, as the code has it.  An executor takes the cancellation branch of
    its [select] only when the channel is closed; taking it makes no
    injection and ends the executor, and in every continuation that executor
    makes no injection: no injection for a task occurs after its executor
    observes cancellation.  Once the channel is closed, that branch can be
    taken at every round of every executor that is in its loop.  (The tick
    branch can be taken then as well: the closing of the channel alone does
    not end the injections.) *)
Theorem C4_cancel_exits (p : Platform) (i : nat) (s : System) :
  (forall s', step p (Cancel i) s = Next s' ->
     stopCh (runner s) = ChanClosed /\
     injected s' = injected s /\
     exitedAt s' i /\
     forall later s'', run p later s' = Some s'' ->
       exists extra,
         injected s'' = injected s' ++ extra /\
         Forall (fun x => fst x <> i) extra) /\
  (forall trace e,
     run p trace initial = Some s ->
     stopCh (runner s) = ChanClosed ->
     executors s !! i = Some e -> phase e = Selecting ->
     exists s', step p (Cancel i) s = Next s').
Proof.
  split.
  - intros s' Hs.
    assert (Hex : exitedAt s' i).
    { simpl in Hs; apply in_phase_next in Hs as (e & Hi & _ & _ & Hk).
      unfold runTask_cancel in Hk; destruct (stopCh (runner s)); try discriminate.
      apply exit_next in Hk as ->.
      exists {| task := task e; phase := Exited |}; simpl; split; [|reflexivity].
      apply list_lookup_insert_eq; eapply lookup_lt_Some, Hi. }
    split; [|split; [|split]]; try assumption.
    + simpl in Hs; apply in_phase_next in Hs as (e & _ & _ & _ & Hk).
      unfold runTask_cancel in Hk; now destruct (stopCh (runner s)).
    + destruct (step_log _ _ _ _ Hs) as [Heq | (j & e & Hl & _)];
        [assumption | discriminate].
    + intros later s'' Hl.
      destruct (run_log _ _ _ _ Hl) as (extra & Hlog & Hall).
      exists extra; split; [assumption|].
      eapply Forall_impl; [exact Hall|].
      intros x Hne Heq; apply Hne; rewrite Heq; exact Hex.
  - intros trace e Hr Hch Hi Hph.
    pose proof (run_consistent p trace initial s initial_consistent Hr)
      as [_ Hwg _ _ _].
    eexists; apply (step_cancel_ok p i e s Hi Hph Hch).
    rewrite Hwg; apply (aliveCount_lookup _ i e Hi); congruence.
Qed.

Lemma C4_cancel_exits_witness :
  exists s s' e,
    run MacOS sampleStopping initial = Some s /\
    stopCh (runner s) = ChanClosed /\
    executors s !! 0%nat = Some e /\ phase e = Selecting /\
    step MacOS (Cancel 0) s = Next s' /\
    injected s' = injected s /\
    exitedAt s' 0 /\
    forall later s'', run MacOS later s' = Some s'' ->
      exists extra,
        injected s'' = injected s' ++ extra /\
        Forall (fun x => fst x <> 0%nat) extra.
Proof.
  eexists _, _, _; split; [reflexivity|].
  split; [reflexivity | split; [reflexivity | split; [reflexivity|]]].
  match goal with
  | |- step _ _ ?s = _ /\ _ =>
    destruct (C4_cancel_exits MacOS 0 s) as [Hobserved Henabled]
  end.
  destruct (Henabled sampleStopping _ eq_refl eq_refl eq_refl eq_refl)
    as [s1 Hs1].
  split; [reflexivity|].
  destruct (Hobserved _ eq_refl) as (_ & Hlog & Hex & Hafter).
  split; [exact Hlog | split; [exact Hex | exact Hafter]].
Defined.

(** C4 as stated fails: after the channel has been closed, an executor
    that has not yet taken the cancellation branch serves a tick that is
    ready and makes one more injection. *)
Lemma C4_injection_after_close :
  exists s s',
    run MacOS sampleStopping initial = Some s /\
    stopCh (runner s) = ChanClosed /\
    step MacOS (Tick 0) s = Next s' /\
    injected s' = injected s ++ [(0%nat, InjectUnicode 97%N)].
Proof.
  eexists _, _; split; [reflexivity|].
  split; [reflexivity | split; reflexivity].
Qed.

End Cancellation.

(** ** The interval of a task *)

Section Intervals.

Lemma int64_small (z : Z) :
  (- 2 ^ 63 <= z < 2 ^ 63)%Z -> int64 z = z.
Proof.
  intros Hz; unfold int64.
  rewrite Z.mod_small by lia; lia.
Qed.

Lemma int64_range (z : Z) : (- 2 ^ 63 <= int64 z < 2 ^ 63)%Z.
Proof.
  unfold int64.
  pose proof (Z.mod_pos_bound (z + 2 ^ 63) (2 ^ 64)); lia.
Qed.

Lemma taskFor_positive (t : KeyTask) (entry : KeyEntry) :
  (0 < IntervalMS entry <= maxIntervalMS)%Z -> positiveInterval (taskFor t entry).
Proof.
  unfold positiveInterval, taskFor, Millisecond, maxIntervalMS; simpl.
  intros Hms; rewrite int64_small; lia.
Qed.

(** For an entry with a positive number of milliseconds, the interval of its
    task is that number of milliseconds exactly when it is at most
    9223372036854 (beyond, the multiplication wraps around); within that
    bound the interval is positive, so its ticker can be made. *)
Theorem interval_exact (t : KeyTask) (entry : KeyEntry) :
  (0 < IntervalMS entry)%Z ->
  (Interval (taskFor t entry) = (IntervalMS entry * 1000000)%Z <->
   (IntervalMS entry <= maxIntervalMS)%Z) /\
  ((IntervalMS entry <= maxIntervalMS)%Z -> positiveInterval (taskFor t entry)).
Proof.
  intros Hpos; unfold positiveInterval, taskFor, Millisecond, maxIntervalMS; simpl.
  pose proof (int64_range (IntervalMS entry * 1000000)) as Hr.
  split; [split|].
  - intros Heq; rewrite Heq in Hr; lia.
  - intros Hle; apply int64_small; lia.
  - intros Hle; rewrite int64_small; lia.
Qed.

Lemma interval_exact_witness :
  (0 < IntervalMS {| Key := "A"; IntervalMS := 1000; Enabled := true |})%Z /\
  ((Interval (taskFor sampleTask {| Key := "A"; IntervalMS := 1000; Enabled := true |})
    = (IntervalMS {| Key := "A"; IntervalMS := 1000; Enabled := true |} * 1000000)%Z <->
    (IntervalMS {| Key := "A"; IntervalMS := 1000; Enabled := true |} <= maxIntervalMS)%Z) /\
   ((IntervalMS {| Key := "A"; IntervalMS := 1000; Enabled := true |} <= maxIntervalMS)%Z ->
    positiveInterval (taskFor sampleTask {| Key := "A"; IntervalMS := 1000; Enabled := true |}))).
Proof.
  split; [reflexivity|].
  apply interval_exact; reflexivity.
Defined.

(** The tasks a click on Start builds from entries of at most 9223372036854
    milliseconds all have positive intervals: a run started from the window
    with such entries never reaches the panic of the ticker. *)
Theorem resolved_tasks_positive (resolve : string -> KeyTask * option error)
    (entries : list KeyEntry) :
  Forall (fun entry => (IntervalMS entry <= maxIntervalMS)%Z) entries ->
  Forall positiveInterval (resolvedTasks resolve entries).
Proof.
  induction 1 as [|entry entries Hle _ IH]; [constructor|].
  unfold resolvedTasks; simpl; fold (resolvedTasks resolve entries).
  apply Forall_app; split; [|exact IH].
  unfold usable.
  destruct (Enabled entry); simpl; [|constructor].
  destruct (Z.ltb_spec 0 (IntervalMS entry)) as [Hpos|]; simpl; [|constructor].
  destruct (blank (Key entry)); simpl; [constructor|].
  destruct (resolve (Key entry)) as [t [err|]]; repeat constructor.
  apply taskFor_positive; lia.
Qed.

Lemma resolved_tasks_positive_witness :
  Forall (fun entry => (IntervalMS entry <= maxIntervalMS)%Z) sampleEntries /\
  Forall positiveInterval
    (resolvedTasks (@Darwin.parseMacInput plainCaseTable) sampleEntries).
Proof.
  assert (Hb : Forall (fun entry => (IntervalMS entry <= maxIntervalMS)%Z)
                 sampleEntries).
  { unfold sampleEntries; repeat constructor; discriminate. }
  split; [exact Hb | apply resolved_tasks_positive, Hb].
Defined.

End Intervals.

(** ** The rows of the window *)

Section Rows.
Local Open Scope list_scope.

Lemma lookup_without (items : list KeyEntry) (n j : nat) :
  (n < List.length items)%nat ->
  (take n items ++ drop (S n) items) !! j =
  if (j <? n)%nat then items !! j else items !! S j.
Proof.
  intros Hn.
  destruct (Nat.ltb_spec j n) as [Hj | Hj].
  - rewrite lookup_app_l by (rewrite length_take; lia).
    now apply lookup_take_lt.
  - rewrite lookup_app_r by (rewrite length_take; lia).
    rewrite length_take, lookup_drop.
    f_equal; lia.
Qed.

(** Removing a row, on both platforms: with an index inside the table the
    rows before it stay where they are and the rows after it move up by one,
    so exactly that row goes; the macOS button also resets the selection,
    and the Windows model publishes the removal of that row. *)
Theorem remove_row (index : Z) (items : list KeyEntry) :
  (0 <= index < KeyTableModel.RowCount items)%Z ->
  let items' := fst (KeyTableModel.Remove index items) in
  KeyTableModel.RowCount items' = (KeyTableModel.RowCount items - 1)%Z /\
  (forall j : nat,
     items' !! j =
     if (Z.of_nat j <? index)%Z then items !! j else items !! S j) /\
  snd (KeyTableModel.Remove index items) = Some (RowsRemoved index index) /\
  removeButton_OnTapped index items = (items', (-1)%Z, []) /\
  removeButton_OnClicked index items = (items', []).
Proof.
  unfold KeyTableModel.RowCount, KeyTableModel.Remove, removeButton_OnTapped,
    removeButton_OnClicked, KeyTableModel.Remove, KeyTableModel.RowCount.
  intros [Hlo Hhi].
  destruct (Z.ltb_spec index 0) as [|_]; [lia|].
  destruct (Z.leb_spec (Z.of_nat (List.length items)) index) as [|_]; [lia|].
  simpl.
  replace (Z.to_nat (index + 1)) with (S (Z.to_nat index)) by lia.
  repeat split.
  - rewrite length_app, length_take, length_drop; lia.
  - intros j; rewrite lookup_without by lia.
    destruct (Nat.ltb_spec j (Z.to_nat index)), (Z.ltb_spec (Z.of_nat j) index);
      solve [reflexivity | lia].
Qed.

Lemma remove_row_witness :
  (0 <= 1 < KeyTableModel.RowCount sampleEntries)%Z /\
  (let items' := fst (KeyTableModel.Remove 1 sampleEntries) in
   KeyTableModel.RowCount items' = (KeyTableModel.RowCount sampleEntries - 1)%Z /\
   (forall j : nat,
      items' !! j =
      if (Z.of_nat j <? 1)%Z then sampleEntries !! j else sampleEntries !! S j) /\
   snd (KeyTableModel.Remove 1 sampleEntries) = Some (RowsRemoved 1 1) /\
   removeButton_OnTapped 1 sampleEntries = (items', (-1)%Z, []) /\
   removeButton_OnClicked 1 sampleEntries = (items', [])).
Proof.
  split; [split; [lia | reflexivity]|].
  apply (remove_row 1 sampleEntries); split; [lia | reflexivity].
Defined.

(** Outside the table nothing is removed on either platform, and a row that
    has just been added is the last one: removing it gives the rows back. *)
Theorem remove_keeps_and_undoes_add (index : Z) (entry : KeyEntry)
    (items : list KeyEntry) :
  ((index < 0 \/ KeyTableModel.RowCount items <= index)%Z ->
   KeyTableModel.Remove index items = (items, None) /\
   fst (fst (removeButton_OnTapped index items)) = items /\
   fst (removeButton_OnClicked index items) = items) /\
  fst (KeyTableModel.Add entry items) !! List.length items = Some entry /\
  KeyTableModel.RowCount (fst (KeyTableModel.Add entry items))
    = (KeyTableModel.RowCount items + 1)%Z /\
  fst (KeyTableModel.Remove (KeyTableModel.RowCount items)
         (fst (KeyTableModel.Add entry items))) = items.
Proof.
  unfold KeyTableModel.Add, removeButton_OnTapped, removeButton_OnClicked,
    KeyTableModel.Remove, KeyTableModel.RowCount; simpl.
  repeat split.
  - destruct (Z.ltb_spec index 0), (Z.leb_spec (Z.of_nat (List.length items)) index);
      simpl; solve [reflexivity | lia].
  - destruct (Z.ltb_spec index 0), (Z.leb_spec (Z.of_nat (List.length items)) index);
      simpl; solve [reflexivity | lia].
  - destruct (Z.ltb_spec index 0); [reflexivity|]; simpl.
    destruct (Z.ltb_spec index 0), (Z.leb_spec (Z.of_nat (List.length items)) index);
      simpl; solve [reflexivity | lia].
  - apply list_lookup_middle; reflexivity.
  - rewrite length_app; simpl; lia.
  - rewrite length_app; simpl.
    destruct (Z.ltb_spec (Z.of_nat (List.length items)) 0); [lia|].
    destruct (Z.leb_spec (Z.of_nat (List.length items + 1)) (Z.of_nat (List.length items)));
      [lia|]; simpl.
    replace (Z.to_nat (Z.of_nat (List.length items) + 1))
      with (S (List.length items)) by lia.
    rewrite Nat2Z.id, take_app_length.
    rewrite drop_ge by (rewrite length_app; simpl; lia).
    apply app_nil_r.
Qed.

End Rows.

(** ** The injection of a rune *)

Section Utf16.
Local Open Scope list_scope.

Lemma utf16_pair (r : N) :
  (0x10000 <= r <= 0x10FFFF)%N ->
  exists hi lo,
    utf16.EncodeRune r = (hi, lo) /\
    (0xD800 <= hi < 0xDC00)%N /\ (0xDC00 <= lo < 0xE000)%N /\
    (0x10000 + (hi - 0xD800) * 0x400 + (lo - 0xDC00) = r)%N.
Proof.
  intros Hr; unfold utf16.EncodeRune, utf16.surrSelf, utf16.surr1, utf16.surr2.
  eexists _, _; split; [reflexivity|].
  change 0x3ff%N with (N.ones 10).
  rewrite !N.land_ones, N.shiftr_div_pow2.
  change (2 ^ 10)%N with 1024%N.
  pose proof (N.mod_lt (r - 65536) 1024 ltac:(lia)).
  assert (Hq : ((r - 65536) / 1024 < 1024)%N)
    by (apply N.Div0.div_lt_upper_bound; lia).
  rewrite (N.mod_small _ _ Hq).
  pose proof (N.div_mod (r - 65536) 1024 ltac:(lia)).
  set (q := ((r - 65536) / 1024)%N) in *.
  set (m := ((r - 65536) mod 1024)%N) in *.
  clearbody q m; repeat split; lia.
Qed.

Lemma encodeOne_cases (r : N) :
  (validScalar r = true /\ (r < 0x10000)%N /\ utf16.encodeOne r = [r]) \/
  (validScalar r = true /\
   exists hi lo,
     utf16.encodeOne r = [hi; lo] /\
     (0xD800 <= hi < 0xDC00)%N /\ (0xDC00 <= lo < 0xE000)%N /\
     (0x10000 + (hi - 0xD800) * 0x400 + (lo - 0xDC00) = r)%N) \/
  (validScalar r = false /\ utf16.encodeOne r = [0xFFFD%N]).
Proof.
  unfold utf16.encodeOne, validScalar, utf16.surr1, utf16.surr3,
    utf16.surrSelf, utf16.maxRune, utf16.replacementChar, utf16.uint16.
  destruct (N.ltb_spec r 0xD800), (N.leb_spec 0xE000 r),
    (N.ltb_spec r 0x10000), (N.leb_spec 0x10000 r), (N.leb_spec r 0x10FFFF);
    cbn [orb andb]; try lia.
  - left; rewrite N.mod_small by lia; auto.
  - left; rewrite N.mod_small by lia; auto.
  - right; left; split; [reflexivity|].
    destruct (utf16_pair r) as (hi & lo & Heq & Hhi & Hlo & Hv); [lia|].
    rewrite Heq, !N.mod_small by lia.
    now exists hi, lo.
  - right; right; auto.
  - right; right; auto.
Qed.

(** The UTF-16 units made for a rune are one or two 16-bit units, never
    none (the test [len(units) == 0] of [keyTapUnicode] never holds); read
    back, they give the rune itself when it is a Unicode scalar value and
    U+FFFD otherwise. *)
Theorem utf16_units (r : rune) :
  (List.length (utf16.Encode [r]) = 1%nat \/
   List.length (utf16.Encode [r]) = 2%nat) /\
  Forall (fun u => (u < 65536)%N) (utf16.Encode [r]) /\
  utf16_value (utf16.Encode [r])
    = Some (if validScalar r then r else 0xFFFD%N).
Proof.
  change N in (type of r).
  unfold utf16.Encode; cbn [flat_map]; rewrite app_nil_r.
  destruct (encodeOne_cases r)
    as [(Hv & Hlt & ->) | [(Hv & hi & lo & -> & Hhi & Hlo & Heq) | (Hv & ->)]];
    rewrite Hv.
  - repeat split; [now left | repeat constructor; lia |].
    unfold validScalar in Hv; unfold utf16_value.
    destruct (N.leb_spec 0xD800 r), (N.ltb_spec r 0xE000),
      (N.ltb_spec r 0xD800), (N.leb_spec 0xE000 r);
      cbn [orb andb] in *; solve [reflexivity | discriminate | lia].
  - repeat split; [now right | repeat constructor; lia |].
    unfold utf16_value.
    destruct (N.leb_spec 0xD800 hi), (N.ltb_spec hi 0xDC00),
      (N.leb_spec 0xDC00 lo), (N.ltb_spec lo 0xE000); cbn [andb];
      solve [f_equal; exact Heq | lia].
  - split; [now left | split; [repeat constructor; reflexivity | reflexivity]].
Qed.

End Utf16.

(** ** The runes of a string are Unicode scalar values *)

Section DecoderValues.

Lemma land_shiftl_low (a b n : N) :
  (b < 2 ^ n)%N -> N.land (N.shiftl a n) b = 0%N.
Proof.
  intros Hb; apply N.bits_inj; intros m.
  rewrite N.land_spec, N.bits_0.
  destruct (N.lt_ge_cases m n) as [Hm | Hm].
  - now rewrite N.shiftl_spec_low.
  - destruct (N.eq_dec b 0) as [-> | Hnz];
      [now rewrite N.bits_0, andb_false_r|].
    rewrite (N.bits_above_log2 b m), andb_false_r; [reflexivity|].
    apply N.log2_lt_pow2 in Hb; lia.
Qed.

Lemma lor_shiftl_add (a b n : N) :
  (b < 2 ^ n)%N -> N.lor (N.shiftl a n) b = (a * 2 ^ n + b)%N.
Proof.
  intros Hb.
  rewrite <- N.lxor_lor, <- N.add_nocarry_lxor by now apply land_shiftl_low.
  now rewrite N.shiftl_mul_pow2.
Qed.

Lemma mask_mod (x k : N) :
  N.land x (N.ones k) = (x mod 2 ^ k)%N /\ (x mod 2 ^ k < 2 ^ k)%N /\
  x = (2 ^ k * (x / 2 ^ k) + x mod 2 ^ k)%N.
Proof.
  assert (Hk : (2 ^ k <> 0)%N) by (apply N.pow_nonzero; discriminate).
  split; [apply N.land_ones | split; [now apply N.mod_lt | now apply N.div_mod]].
Qed.

(** The value of a two, three and four byte sequence, as sums. *)
Lemma value2 (a b : N) :
  N.lor (N.shiftl (N.land a 0x1F) 6) (N.land b 0x3F)
  = (a mod 32 * 64 + b mod 64)%N.
Proof.
  change 0x1F%N with (N.ones 5); change 0x3F%N with (N.ones 6).
  rewrite !N.land_ones, lor_shiftl_add; [reflexivity|].
  apply N.mod_lt; discriminate.
Qed.

Lemma value3 (a b c : N) :
  N.lor (N.lor (N.shiftl (N.land a 0x0F) 12) (N.shiftl (N.land b 0x3F) 6))
        (N.land c 0x3F)
  = ((a mod 16 * 64 + b mod 64) * 64 + c mod 64)%N.
Proof.
  change 0x0F%N with (N.ones 4); change 0x3F%N with (N.ones 6).
  rewrite !N.land_ones.
  change 12%N with (6 + 6)%N; rewrite <- N.shiftl_shiftl, <- N.shiftl_lor.
  rewrite (lor_shiftl_add (a mod 2 ^ 4)) by (apply N.mod_lt; discriminate).
  rewrite lor_shiftl_add by (apply N.mod_lt; discriminate).
  reflexivity.
Qed.

Lemma value4 (a b c d : N) :
  N.lor (N.lor (N.lor (N.shiftl (N.land a 0x07) 18)
                      (N.shiftl (N.land b 0x3F) 12))
               (N.shiftl (N.land c 0x3F) 6))
        (N.land d 0x3F)
  = (((a mod 8 * 64 + b mod 64) * 64 + c mod 64) * 64 + d mod 64)%N.
Proof.
  change 0x07%N with (N.ones 3); change 0x3F%N with (N.ones 6).
  rewrite !N.land_ones.
  change 18%N with (6 + 12)%N; rewrite <- (N.shiftl_shiftl _ 6 12), <- N.shiftl_lor.
  change 12%N with (6 + 6)%N; rewrite <- (N.shiftl_shiftl _ 6 6), <- N.shiftl_lor.
  rewrite (lor_shiftl_add (a mod 2 ^ 3)) by (apply N.mod_lt; discriminate).
  rewrite lor_shiftl_add by (apply N.mod_lt; discriminate).
  rewrite lor_shiftl_add by (apply N.mod_lt; discriminate).
  reflexivity.
Qed.

Lemma validScalar_spec (r : N) :
  validScalar r = true <->
  ((r < 0xD800)%N \/ (0xE000 <= r)%N) /\ (r <= 0x10FFFF)%N.
Proof.
  unfold validScalar.
  destruct (N.ltb_spec r 0xD800), (N.leb_spec 0xE000 r),
    (N.leb_spec r 0x10FFFF); cbn [orb andb]; split;
    solve [intros; lia | reflexivity | discriminate].
Qed.

Lemma first_ascii (b : N) : utf8.first b = utf8.LeadASCII -> (b < 0x80)%N.
Proof.
  unfold utf8.first.
  destruct (N.ltb_spec b 0x80); [trivial|].
  repeat match goal with |- context [if ?c then _ else _] => destruct c end;
    discriminate.
Qed.

(** What the table of leading bytes says of a multi-byte sequence. *)
Lemma first_multi (b : N) (sz : nat) (lo hi : N) :
  utf8.first b = utf8.LeadMulti sz lo hi ->
  (0x80 <= lo)%N /\ (hi <= 0xBF)%N /\
  ((sz = 2%nat /\ (0xC2 <= b <= 0xDF)%N) \/
   (sz = 3%nat /\ (0xE0 <= b <= 0xEF)%N /\
    (b = 0xE0%N -> lo = 0xA0%N) /\ (b = 0xED%N -> hi = 0x9F%N)) \/
   (sz = 4%nat /\ (0xF0 <= b <= 0xF4)%N /\
    (b = 0xF0%N -> lo = 0x90%N) /\ (b = 0xF4%N -> hi = 0x8F%N))).
Proof.
  unfold utf8.first.
  destruct (N.ltb_spec b 0x80); [discriminate|].
  destruct (N.ltb_spec b 0xC2); [discriminate|].
  destruct (N.ltb_spec b 0xE0); [intros [= <- <- <-]; lia|].
  destruct (N.eqb_spec b 0xE0); [intros [= <- <- <-]; lia|].
  destruct (N.ltb_spec b 0xED); [intros [= <- <- <-]; lia|].
  destruct (N.eqb_spec b 0xED); [intros [= <- <- <-]; lia|].
  destruct (N.ltb_spec b 0xF0); [intros [= <- <- <-]; lia|].
  destruct (N.eqb_spec b 0xF0); [intros [= <- <- <-]; lia|].
  destruct (N.ltb_spec b 0xF4); [intros [= <- <- <-]; lia|].
  destruct (N.eqb_spec b 0xF4); [intros [= <- <- <-]; lia|].
  discriminate.
Qed.

Lemma outside_false (b lo hi : N) :
  utf8.outside b lo hi = false -> (lo <= b <= hi)%N.
Proof.
  unfold utf8.outside.
  destruct (N.ltb_spec b lo), (N.ltb_spec hi b); simpl;
    solve [discriminate | lia].
Qed.

Ltac with_mod x k :=
  let Hlt := fresh "Hlt" in
  let Hdm := fresh "Hdm" in
  pose proof (N.mod_lt x k ltac:(discriminate)) as Hlt;
  pose proof (N.div_mod x k ltac:(discriminate)) as Hdm;
  let q := fresh "q" in
  let m := fresh "m" in
  set (q := (x / k)%N) in *; set (m := (x mod k)%N) in *;
  clearbody q m.

Lemma DecodeRune_valid (s : string) :
  validScalar (fst (utf8.DecodeRuneInString s)) = true.
Proof.
  destruct s as [|c0 t0]; [reflexivity|].
  unfold utf8.DecodeRuneInString; cbv zeta.
  destruct (utf8.first (byte_val c0)) as [| |sz lo hi] eqn:Hf;
    [|reflexivity|].
  { apply first_ascii in Hf; apply validScalar_spec; simpl; lia. }
  apply first_multi in Hf as (Hlo & Hhi & Hsz).
  destruct t0 as [|c1 [|c2 [|c3 t3]]];
    destruct Hsz as [(-> & Hb) | [(-> & Hb & Hb1 & Hb2) | (-> & Hb & Hb1 & Hb2)]];
    cbn [String.length Nat.ltb Nat.leb fst]; try reflexivity;
    repeat match goal with
    | |- context [if utf8.outside ?x ?l ?h then _ else _] =>
      let Ho := fresh "Ho" in
      destruct (utf8.outside x l h) eqn:Ho;
        [try reflexivity | apply outside_false in Ho]
    end;
    try reflexivity;
    cbn [fst]; rewrite ?value2, ?value3, ?value4;
    apply validScalar_spec.
  all: repeat match goal with
       | |- context [(?x mod ?k)%N] => with_mod x k
       end; lia.
Qed.

(** Whatever the bytes, the runes read from a string are Unicode scalar
    values: never a surrogate, never beyond U+10FFFF (an invalid sequence
    gives U+FFFD). *)
Lemma decode_loop_valid (fuel : nat) (s : string) :
  Forall (fun c => validScalar (fst c) = true) (utf8.decode_loop fuel s).
Proof.
  revert s; induction fuel as [|fuel IH]; intros s; simpl; [constructor|].
  destruct s as [|c t]; [constructor|].
  pose proof (DecodeRune_valid (String c t)) as Hv.
  destruct (utf8.DecodeRuneInString (String c t)) as [r w].
  constructor; [exact Hv | apply IH].
Qed.

Lemma runes_valid (s : string) :
  Forall (fun r => validScalar r = true) (runes_of s).
Proof.
  unfold runes_of, utf8.decode.
  induction (decode_loop_valid (String.length s) s); simpl; constructor; auto.
Qed.

End DecoderValues.

(** ** From the character typed to the events sent *)

Section TypedCharacter.
Context `{CaseTable} `{keybd_event}.
Local Open Scope list_scope.

Lemma send_units (units : list N) :
  Forall (fun u => (u < 65536)%N) units ->
  let sent :=
    flat_map
      (fun unit =>
         [sendUnicodeUnit (utf16.uint16 unit) 0%N;
          sendUnicodeUnit (utf16.uint16 unit) keyeventfKeyUp])
      units in
  map scanAndRelease sent = flat_map (fun u => [(u, false); (u, true)]) units /\
  Forall (fun e => Type_ e = inputKeyboard /\ Vk (Ki e) = 0%N /\
                   N.land (Flags (Ki e)) keyeventfUnicode = keyeventfUnicode)
    sent.
Proof.
  induction 1 as [|u units Hu _ IH]; cbv zeta in *; [split; constructor|].
  destruct IH as [IH1 IH2].
  assert (Hm : utf16.uint16 u = u) by (apply N.mod_small, Hu).
  cbn [flat_map app map]; rewrite !Hm, IH1.
  split; [reflexivity | repeat constructor; exact IH2].
Qed.

Lemma sendUnicode_units (r : rune) :
  Forall (fun u => (u < 65536)%N) (utf16.Encode [r]) ->
  map scanAndRelease (sendUnicode r)
    = flat_map (fun u => [(u, false); (u, true)]) (utf16.Encode [r]) /\
  Forall (fun e => Type_ e = inputKeyboard /\ Vk (Ki e) = 0%N /\
                   N.land (Flags (Ki e)) keyeventfUnicode = keyeventfUnicode)
    (sendUnicode r).
Proof. intros Hu; apply (send_units _ Hu). Qed.

(** A key of one character is injected as that character.  When the trimmed
    key of an entry is the single rune [r], the task built for the entry
    injects [r] on both platforms; [r] is a Unicode scalar value, so the
    UTF-16 units sent read back as [r]; on Windows each unit is sent as a
    key press followed by its release, every structure being a keyboard
    input with the Unicode flag and no virtual key; on macOS one press and
    one release carry the units. *)
Theorem typed_character_is_injected (input : string) (r : rune)
    (entry : KeyEntry) :
  runes_of (strings.TrimSpace input) = [r] ->
  injection (taskFor (fst (Darwin.parseMacInput input)) entry) = InjectUnicode r /\
  injection (taskFor (fst (Windows.parseKeyInput input)) entry) = InjectUnicode r /\
  validScalar r = true /\
  utf16_value (utf16.Encode [r]) = Some r /\
  map scanAndRelease (sendUnicode r)
    = flat_map (fun u => [(u, false); (u, true)]) (utf16.Encode [r]) /\
  Forall (fun e => Type_ e = inputKeyboard /\ Vk (Ki e) = 0%N /\
                   N.land (Flags (Ki e)) keyeventfUnicode = keyeventfUnicode)
    (sendUnicode r) /\
  keyTapUnicode true r =
    [{| keyCode := 0%Z; keyDown := true; unicodeString := utf16.Encode [r] |};
     {| keyCode := 0%Z; keyDown := false; unicodeString := utf16.Encode [r] |}].
Proof.
  intros Hr.
  rewrite parseMacInput_rules, parseKeyInput_rules.
  rewrite !(resolve_single _ input r Hr).
  assert (Hv : validScalar r = true).
  { pose proof (runes_valid (strings.TrimSpace input)) as Hall.
    rewrite Hr in Hall; now apply Forall_cons in Hall as [Hv _]. }
  assert (Hu : Forall (fun u => (u < 65536)%N) (utf16.Encode [r]) /\
               utf16_value (utf16.Encode [r]) = Some r /\
               (List.length (utf16.Encode [r]) =? 0)%nat = false).
  { unfold utf16.Encode; cbn [flat_map]; rewrite app_nil_r.
    change N in (type of r).
    destruct (encodeOne_cases r)
      as [(_ & Hlt & ->) | [(_ & hi & lo & -> & Hhi & Hlo & Heq) | (Hn & _)]];
      [| |congruence].
    - split; [repeat constructor; lia | split; [|reflexivity]].
      apply (proj1 (validScalar_spec r)) in Hv; unfold utf16_value.
      destruct (N.leb_spec 0xD800 r), (N.ltb_spec r 0xE000); cbn [andb];
        solve [reflexivity | lia].
    - split; [repeat constructor; lia | split; [|reflexivity]].
      unfold utf16_value.
      destruct (N.leb_spec 0xD800 hi), (N.ltb_spec hi 0xDC00),
        (N.leb_spec 0xDC00 lo), (N.ltb_spec lo 0xE000); cbn [andb];
        solve [f_equal; exact Heq | lia]. }
  destruct Hu as (Hlt & Hval & Hlen).
  destruct (sendUnicode_units r Hlt) as [Hsend Hflags].
  repeat split; try assumption.
  unfold keyTapUnicode; cbv zeta; now rewrite Hlen.
Qed.

End TypedCharacter.

Lemma typed_character_is_injected_witness :
  runes_of (strings.TrimSpace " a ") = [97%N] /\
  (injection (taskFor (fst (@Darwin.parseMacInput plainCaseTable " a "))
                {| Key := " a "; IntervalMS := 100; Enabled := true |})
     = InjectUnicode 97%N /\
   injection (taskFor (fst (@Windows.parseKeyInput sampleKeys plainCaseTable " a "))
                {| Key := " a "; IntervalMS := 100; Enabled := true |})
     = InjectUnicode 97%N /\
   validScalar 97%N = true /\
   utf16_value (utf16.Encode [97%N]) = Some 97%N /\
   map scanAndRelease (sendUnicode 97%N)
     = flat_map (fun u => [(u, false); (u, true)]) (utf16.Encode [97%N]) /\
   Forall (fun e => Type_ e = inputKeyboard /\ Vk (Ki e) = 0%N /\
                    N.land (Flags (Ki e)) keyeventfUnicode = keyeventfUnicode)
     (sendUnicode 97%N) /\
   keyTapUnicode true 97%N =
     [{| keyCode := 0%Z; keyDown := true; unicodeString := utf16.Encode [97%N] |};
      {| keyCode := 0%Z; keyDown := false; unicodeString := utf16.Encode [97%N] |}]).
Proof.
  split; [reflexivity|].
  apply (@typed_character_is_injected plainCaseTable sampleKeys " a " 97%N);
    reflexivity.
Defined.

(** ** Trimming twice *)

Section TrimTwice.

Lemma first_sizes (b : N) (sz : nat) (lo hi : N) :
  utf8.first b = utf8.LeadMulti sz lo hi -> sz = 2%nat \/ sz = 3%nat \/ sz = 4%nat.
Proof. intros Hf; apply first_multi in Hf as (_ & _ & Hsz); intuition. Qed.

(** The decoder never reads past the width it returns, and that width fits
    the string. *)
Lemma DecodeRune_width_le (s : string) :
  (snd (utf8.DecodeRuneInString s) <= String.length s)%nat.
Proof.
  destruct s as [|c0 t0]; [simpl; lia|].
  unfold utf8.DecodeRuneInString; cbv zeta.
  destruct (utf8.first (byte_val c0)) as [| |sz lo hi] eqn:Hf;
    [simpl; lia | simpl; lia|].
  apply first_sizes in Hf as [-> | [-> | ->]];
    destruct t0 as [|c1 [|c2 [|c3 t3]]];
    cbn [String.length Nat.ltb Nat.leb];
    repeat match goal with
    | |- context [if ?c then _ else _] => destruct c
    end; simpl; lia.
Qed.

Lemma DecodeRune_prefix (x u : string) (r : rune) (w : nat) :
  utf8.DecodeRuneInString (x ++ u) = (r, w) ->
  (1 <= w <= String.length x)%nat ->
  utf8.DecodeRuneInString x = (r, w).
Proof.
  destruct x as [|c0 x0]; [simpl; lia|].
  rewrite append_cons.
  unfold utf8.DecodeRuneInString; cbv zeta.
  destruct (utf8.first (byte_val c0)) as [| |sz lo hi] eqn:Hf;
    [trivial | trivial|].
  apply first_sizes in Hf as [-> | [-> | ->]];
    destruct x0 as [|c1 [|c2 [|c3 x3]]];
    rewrite ?append_cons, ?append_nil;
    try (destruct u as [|d1 [|d2 [|d3 u3]]]);
    cbn [String.length Nat.ltb Nat.leb];
    repeat match goal with
    | |- context [if ?c then _ else _] => destruct c
    end;
    intros [= <- <-]; simpl; intros; solve [reflexivity | lia].
Qed.

End TrimTwice.

Section TrimTwiceMore.
Local Open Scope list_scope.

Lemma str_take_length (n : nat) (s : string) :
  String.length (str_take n s) = Nat.min n (String.length s).
Proof.
  revert s; induction n as [|n IH]; intros [|c t]; simpl; auto.
Qed.

Lemma str_app_assoc (a b c : string) : ((a ++ b) ++ c = a ++ (b ++ c))%string.
Proof.
  induction a as [|x a IH]; [reflexivity|].
  rewrite !append_cons; now f_equal.
Qed.

Lemma concat_chunks_app (l1 l2 : list (rune * string)) :
  strings.concat_bytes (map snd (l1 ++ l2)) =
  (strings.concat_bytes (map snd l1) ++ strings.concat_bytes (map snd l2))%string.
Proof.
  induction l1 as [|c l1 IH]; [reflexivity|]; simpl.
  now rewrite IH, str_app_assoc.
Qed.

Lemma decode_loop_enough (fuel1 fuel2 : nat) (s : string) :
  (String.length s <= fuel1)%nat -> (String.length s <= fuel2)%nat ->
  utf8.decode_loop fuel1 s = utf8.decode_loop fuel2 s.
Proof.
  revert fuel2 s; induction fuel1 as [|fuel1 IH]; intros fuel2 s H1 H2.
  - assert (Hs : s = "") by (apply str_length_zero; lia).
    subst; now destruct fuel2.
  - destruct s as [|c t]; [now destruct fuel2|].
    destruct fuel2 as [|fuel2]; [simpl in H2; lia|].
    cbn [utf8.decode_loop].
    pose proof (DecodeRune_width c t) as Hw.
    destruct (utf8.DecodeRuneInString (String c t)) as [r w]; simpl in Hw.
    f_equal; apply IH; rewrite str_drop_length; simpl in *; lia.
Qed.

Lemma decode_cons (c : ascii) (t : string) :
  utf8.decode (String c t) =
  (fst (utf8.DecodeRuneInString (String c t)),
   str_take (snd (utf8.DecodeRuneInString (String c t))) (String c t))
  :: utf8.decode (str_drop (snd (utf8.DecodeRuneInString (String c t))) (String c t)).
Proof.
  unfold utf8.decode; cbn [utf8.decode_loop String.length].
  pose proof (DecodeRune_width c t) as Hw.
  destruct (utf8.DecodeRuneInString (String c t)) as [r w]; simpl in *.
  f_equal; apply decode_loop_enough; rewrite ?str_drop_length; simpl; lia.
Qed.

Lemma trimLeft_decode (s : string) :
  exists s', strings.trimLeft (utf8.decode s) = utf8.decode s'.
Proof.
  remember (String.length s) as n eqn:Hn.
  revert s Hn; induction n as [n IH] using lt_wf_ind; intros s Hn.
  destruct s as [|c t]; [now exists ""|].
  rewrite decode_cons; simpl strings.trimLeft.
  destruct (unicode.IsSpace _).
  - pose proof (DecodeRune_width c t).
    eapply (IH (String.length (str_drop _ (String c t)))); [|reflexivity].
    rewrite str_drop_length; simpl in *; lia.
  - exists (String c t); now rewrite decode_cons.
Qed.

Lemma trimLeft_hd (l : list (rune * string)) (c : rune * string)
    (rest : list (rune * string)) :
  strings.trimLeft l = c :: rest -> unicode.IsSpace (fst c) = false.
Proof.
  induction l as [|x l IH]; simpl; [discriminate|].
  destruct (unicode.IsSpace (fst x)) eqn:Hx; [exact IH|].
  now intros [= <- _].
Qed.

Lemma trimLeft_snoc (front : list (rune * string)) (c : rune * string) :
  unicode.IsSpace (fst c) = false ->
  exists a1 a2, front = a1 ++ a2 /\ strings.trimLeft (front ++ [c]) = a2 ++ [c].
Proof.
  intros Hc; induction front as [|x front IH]; simpl.
  - exists [], []; now rewrite Hc.
  - destruct (unicode.IsSpace (fst x)).
    + destruct IH as (a1 & a2 & -> & Ht); now exists (x :: a1), a2.
    + now exists [], (x :: front).
Qed.

Lemma trimRight_head (c : rune * string) (rest : list (rune * string)) :
  unicode.IsSpace (fst c) = false ->
  exists kept cut, rest = kept ++ cut /\ strings.trimRight (c :: rest) = c :: kept.
Proof.
  intros Hc; unfold strings.trimRight; simpl rev.
  destruct (trimLeft_snoc (rev rest) c Hc) as (a1 & a2 & Hrev & ->).
  exists (rev a2), (rev a1); split.
  - now rewrite <- rev_app_distr, <- Hrev, rev_involutive.
  - now rewrite rev_app_distr.
Qed.

(** What is left after trimming starts with a rune that is not white
    space: the trimmed string is blank only when it is empty. *)
Lemma TrimSpace_not_blank (s : string) :
  strings.TrimSpace s <> "" -> blank (strings.TrimSpace s) = false.
Proof.
  intros Hne; unfold strings.TrimSpace in *.
  destruct (trimLeft_decode s) as [s' Hs']; rewrite Hs' in *.
  destruct s' as [|c t]; [now elim Hne|].
  pose proof (decode_covers (String c t)) as Hcov.
  pose proof Hs' as Hhd.
  rewrite decode_cons in Hs', Hcov |- *.
  rewrite decode_cons in Hne.
  pose proof (DecodeRune_width c t) as Hw1.
  pose proof (DecodeRune_width_le (String c t)) as Hw2.
  destruct (utf8.DecodeRuneInString (String c t)) as [r w] eqn:Hd.
  cbn [fst snd] in *.
  apply trimLeft_hd in Hs'; cbn [fst] in Hs'.
  destruct (trimRight_head (r, str_take w (String c t))
              (utf8.decode (str_drop w (String c t))) Hs')
    as (kept & cut & Hrest & Htr).
  rewrite Htr in *; rewrite Hrest in Hcov.
  change ((r, str_take w (String c t)) :: kept ++ cut)
    with (((r, str_take w (String c t)) :: kept) ++ cut) in Hcov.
  rewrite concat_chunks_app in Hcov.
  set (x := strings.concat_bytes (map snd ((r, str_take w (String c t)) :: kept))) in *.
  assert (Hlen : (w <= String.length x)%nat).
  { unfold x; simpl; rewrite app_length_str, str_take_length; simpl in *; lia. }
  rewrite <- Hcov in Hd.
  apply DecodeRune_prefix in Hd; [|lia].
  destruct x as [|cx tx]; [simpl in Hlen; lia|].
  unfold blank, runes_of; rewrite decode_cons, Hd; simpl.
  now rewrite Hs'.
Qed.

End TrimTwiceMore.

(** ** The Add dialog *)

Section AddDialog.

Lemma Atoi_range (s : string) (v : Z) :
  strconv.Atoi s = Some v -> (- 2 ^ 63 <= v < 2 ^ 63)%Z.
Proof.
  unfold strconv.Atoi; destruct s as [|c t]; [discriminate|]; cbv zeta.
  set (body := if (Ascii.eqb c "-" || Ascii.eqb c "+")%bool then t else String c t).
  destruct body as [|b body]; [discriminate|].
  destruct (strconv.digitsValue (String b body) 0) as [n|]; [|discriminate].
  set (x := (if Ascii.eqb c "-" then - n else n)%Z).
  destruct (Z.leb_spec (- 2 ^ 63) x), (Z.ltb_spec x (2 ^ 63));
    simpl; intros [= <-]; lia.
Qed.

Lemma parseInterval_range (v : string) :
  (- 2 ^ 63 <= parseInterval v < 2 ^ 63)%Z.
Proof.
  unfold parseInterval; cbv zeta.
  destruct (_ =? "")%string; [lia|].
  destruct (strconv.Atoi _) as [n|] eqn:Ha; [|lia].
  now apply Atoi_range in Ha.
Qed.

(** The Add dialog accepts exactly the inputs whose key is not blank and
    whose interval text parses to a positive number.  The entry it adds has
    the trimmed key, which is not blank, an interval that is positive and
    fits an [int], and is enabled as the box says: a click on Start keeps
    such an entry exactly when it is enabled.  A rejected input adds nothing
    and shows the validation message. *)
Theorem add_dialog_entry (keyText intervalText : string) (checked : bool) :
  match showAddDialog keyText intervalText checked with
  | (Some entry, shown) =>
    shown = [] /\
    blank keyText = false /\ (0 < parseInterval intervalText)%Z /\
    Key entry = strings.TrimSpace keyText /\ blank (Key entry) = false /\
    IntervalMS entry = parseInterval intervalText /\
    (0 < IntervalMS entry < 2 ^ 63)%Z /\
    Enabled entry = checked /\ usable entry = checked
  | (None, shown) =>
    shown = [{| title := "Validation"; message := validationMessage |}] /\
    (blank keyText = true \/ (parseInterval intervalText <= 0)%Z)
  end.
Proof.
  unfold showAddDialog; cbv zeta.
  pose proof (parseInterval_range intervalText) as Hr.
  destruct (String.eqb_spec (strings.TrimSpace keyText) "") as [He | Hne].
  - simpl; split; [reflexivity|]; left; now apply TrimSpace_empty.
  - destruct (Z.leb_spec (parseInterval intervalText) 0) as [Hle | Hpos]; simpl.
    + split; [reflexivity | now right].
    + assert (Hb : blank keyText = false).
      { destruct (blank keyText) eqn:Hb; [|reflexivity].
        apply (proj2 (TrimSpace_empty _)) in Hb; contradiction. }
      pose proof (TrimSpace_not_blank keyText Hne) as Hk.
      unfold usable; simpl; rewrite Hk.
      destruct (Z.ltb_spec 0 (parseInterval intervalText)); [|lia].
      repeat split; try assumption; try lia.
      now destruct checked.
Qed.

End AddDialog.

(** ** The entries that take part in a run *)

Section EntriesOfARun.
Context `{CaseTable} `{keybd_event}.
Local Open Scope list_scope.

Lemma filter_usable_twice (items : list KeyEntry) :
  List.filter usable (List.filter usable items) = List.filter usable items.
Proof.
  induction items as [|entry items IH]; simpl; [reflexivity|].
  destruct (usable entry) eqn:Hu; simpl; [rewrite Hu, IH|]; auto.
Qed.

Lemma resolved_of_usable (resolve : string -> KeyTask * option error)
    (items : list KeyEntry) :
  resolvedTasks resolve (List.filter usable items) = resolvedTasks resolve items /\
  resolutionErrors resolve (List.filter usable items)
    = resolutionErrors resolve items.
Proof.
  induction items as [|entry items [IH1 IH2]]; [now split|].
  rewrite resolvedTasks_cons, resolutionErrors_cons; cbn [List.filter].
  destruct (usable entry) eqn:Hu; [|now split].
  rewrite resolvedTasks_cons, resolutionErrors_cons, Hu, IH1, IH2; now split.
Qed.

(** [EnabledEntries] keeps, in their order, exactly the rows that are
    enabled, have a positive interval and a key that is not blank; applied
    to its own result it changes nothing; and the loop of the macOS Start
    button, which tests each row itself, collects from all the rows what it
    collects from the rows [EnabledEntries] keeps. *)
Theorem enabled_entries_filter (items : list KeyEntry) :
  WindowsMain.EnabledEntries items = List.filter usable items /\
  WindowsMain.EnabledEntries (WindowsMain.EnabledEntries items)
    = WindowsMain.EnabledEntries items /\
  fold_left DarwinMain.loop_body (WindowsMain.EnabledEntries items) ([], [])
    = fold_left DarwinMain.loop_body items ([], []).
Proof.
  unfold WindowsMain.EnabledEntries.
  rewrite !enabled_loop; cbn [app].
  rewrite filter_usable_twice, !darwin_loop.
  destruct (resolved_of_usable Darwin.parseMacInput items) as [-> ->].
  auto.
Qed.

Lemma agree_on_entry (input : string) :
  snd (Darwin.parseMacInput input) = snd (Windows.parseKeyInput input) /\
  forall entry,
    requestOf (taskFor (fst (Darwin.parseMacInput input)) entry)
    = requestOf (taskFor (fst (Windows.parseKeyInput input)) entry).
Proof.
  rewrite parseMacInput_rules, parseKeyInput_rules.
  destruct (resolve_cases input)
    as [(Hb & Hr) | [(Hb & r & _ & Hr) | (Hb & _ & Hr)]];
    rewrite !Hr; simpl; auto.
  destruct (named_outcomes (strings.ToUpper (strings.TrimSpace input)) input)
    as [(_ & mac & win & _ & _ & Hd & Hw) | (_ & Hd & Hw)];
    rewrite Hd, Hw; simpl; auto.
Qed.

Lemma agree_on_entries (entries : list KeyEntry) :
  resolutionErrors Darwin.parseMacInput entries
    = resolutionErrors Windows.parseKeyInput entries /\
  map requestOf (resolvedTasks Darwin.parseMacInput entries)
    = map requestOf (resolvedTasks Windows.parseKeyInput entries).
Proof.
  induction entries as [|entry entries [IH1 IH2]]; [now split|].
  rewrite !resolvedTasks_cons, !resolutionErrors_cons, !map_app, IH1, IH2.
  destruct (usable entry); [|now split].
  destruct (agree_on_entry (Key entry)) as [Herr Hreq].
  specialize (Hreq entry).
  destruct (Darwin.parseMacInput (Key entry)) as [tm [em|]],
    (Windows.parseKeyInput (Key entry)) as [tw [ew|]]; simpl in *;
    try discriminate; split; congruence.
Qed.

(** For the same rows, the Start buttons of the two platforms start a run
    or not alike, report the same errors, and start tasks that ask for the
    same thing in the same order: a Unicode rune or a key, the same rune,
    the same interval (only the key codes are those of the platform). *)
Theorem start_buttons_agree (entries : list KeyEntry) :
  (started (DarwinMain.startButton_OnClicked false entries) = None <->
   started (WindowsMain.startButton_OnClicked false entries) = None) /\
  resolutionErrors Darwin.parseMacInput entries
    = resolutionErrors Windows.parseKeyInput entries /\
  map requestOf (resolvedTasks Darwin.parseMacInput entries)
    = map requestOf (resolvedTasks Windows.parseKeyInput entries).
Proof.
  destruct (agree_on_entries entries) as [Herr Hreq].
  split; [|now split].
  destruct (darwin_click entries) as [-> _].
  destruct (windows_click entries) as [-> _].
  apply (f_equal (@List.length _)) in Hreq; rewrite !length_map in Hreq.
  destruct (resolvedTasks Darwin.parseMacInput entries),
    (resolvedTasks Windows.parseKeyInput entries); simpl in Hreq;
    split; intros; solve [reflexivity | discriminate].
Qed.

End EntriesOfARun.

(** ** The entries of a run and their executors *)

Section ExecutorsOfARun.
Local Open Scope list_scope.

(** An executor that cannot make its ticker never reaches its loop. *)
Lemma step_cannotTick (p : Platform) (l : Label) (s s' : System) (i : nat) :
  (exists e, executors s !! i = Some e /\ phase e <> Selecting /\
             (Interval (task e) <= 0)%Z) ->
  step p l s = Next s' ->
  (exists e, executors s' !! i = Some e /\ phase e <> Selecting /\
             (Interval (task e) <= 0)%Z) /\
  (injected s' = injected s \/
   exists j ev, j <> i /\ injected s' = injected s ++ [(j, ev)]).
Proof.
  intros (e & Hi & Hph & Hle) Hs.
  assert (Hkeep : forall j x ph,
            executors s !! j = Some x ->
            (j = i -> ph <> Selecting) ->
            exists e', <[j := {| task := task x; phase := ph |}]> (executors s) !! i
                       = Some e' /\ phase e' <> Selecting /\
                       (Interval (task e') <= 0)%Z).
  { intros j x ph Hj Hsame.
    destruct (decide (j = i)) as [-> | Hne].
    - rewrite list_lookup_insert_eq by (eapply lookup_lt_Some, Hi).
      eexists; split; [reflexivity|]; simpl.
      rewrite Hi in Hj; injection Hj as <-; auto.
    - rewrite list_lookup_insert_ne by assumption; now exists e. }
  destruct l; simpl in Hs;
    try (apply in_phase_next in Hs as (x & Hj & Hx & _ & Hk)).
  - destruct (caller s); try discriminate; injection Hs as <-.
    unfold Start_locked; destruct (running (runner s)); simpl;
      (split; [now exists e | now left]).
  - destruct (caller s) as [|[|t rest]|]; try discriminate.
    injection Hs as <-; simpl; split; [|now left].
    exists e; split; [now apply lookup_app_l_Some | auto].
  - destruct (caller s) as [|[|t rest]|]; try discriminate.
    injection Hs as <-; simpl; split; [now exists e | now left].
  - destruct (caller s); try discriminate; unfold Stop_locked in Hs.
    destruct (running (runner s)); simpl in Hs;
      [|injection Hs as <-; split; [now exists e | now left]].
    destruct (stopCh (runner s)); try discriminate.
    injection Hs as <-; simpl; split; [now exists e | now left].
  - destruct (caller s); try discriminate; unfold Stop_wait in Hs.
    destruct (_ =? _)%Z; try discriminate.
    injection Hs as <-; simpl; split; [now exists e | now left].
  - (* Setup: only with a positive interval *)
    unfold runTask_setup in Hk.
    destruct (Z.ltb_spec 0 (Interval (task x))) as [Hpos|]; [|discriminate].
    injection Hk as <-; simpl; split; [|now left].
    apply Hkeep; [assumption|].
    intros ->; rewrite Hi in Hj; injection Hj as <-; lia.
  - (* BondingFailed: the executor returns *)
    unfold runTask_bonding_failed in Hk; destruct p; [discriminate|].
    destruct (UseUnicode (task x)); [discriminate|].
    apply exit_next in Hk as ->; simpl; split; [|now left].
    apply Hkeep; [assumption | discriminate].
  - (* Tick: of an executor in its loop, hence another one *)
    injection Hk as <-; simpl; split; [now exists e|].
    right; exists i0, (injection (task x)); split; [|reflexivity].
    intros ->; rewrite Hi in Hj; injection Hj as <-; contradiction.
  - (* Cancel: the same *)
    unfold runTask_cancel in Hk.
    destruct (stopCh (runner s)); try discriminate.
    apply exit_next in Hk as ->; simpl; split; [|now left].
    apply Hkeep; [assumption|].
    intros ->; rewrite Hi in Hj; injection Hj as <-; contradiction.
Qed.

Lemma run_cannotTick (p : Platform) (later : list Label) (s s' : System)
    (i : nat) :
  cannotTick s i ->
  run p later s = Some s' ->
  exists extra,
    injected s' = injected s ++ extra /\
    Forall (fun x => fst x <> i) extra.
Proof.
  intros (e0 & Hi0 & Hph0 & Hle0).
  assert (Hinv : exists e, executors s !! i = Some e /\ phase e <> Selecting /\
                           (Interval (task e) <= 0)%Z)
    by (exists e0; rewrite Hph0; repeat split; auto; discriminate).
  clear e0 Hi0 Hph0 Hle0.
  revert s Hinv; induction later as [|l later IH]; intros s Hinv Hr;
    simpl in Hr.
  - injection Hr as <-; exists []; split; [now rewrite app_nil_r | constructor].
  - destruct (step p l s) as [s1| |] eqn:Hs; try discriminate.
    destruct (step_cannotTick p l s s1 i Hinv Hs) as [Hinv1 Hlog].
    destruct (IH s1 Hinv1 Hr) as (extra & Hext & Hall).
    destruct Hlog as [Heq | (j & ev & Hne & Heq)].
    + exists extra; split; [congruence | assumption].
    + exists ((j, ev) :: extra); split.
      * rewrite Hext, Heq, <- app_assoc; reflexivity.
      * constructor; assumption.
Qed.




Section Handlers.
Context `{CaseTable} `{keybd_event}.

Lemma overflow_tasks (resolve : string -> KeyTask * option error) :
  resolve "b" = (KeyTask_unicode 98%N, None) ->
  resolve "a" = (KeyTask_unicode 97%N, None) ->
  resolvedTasks resolve overflowEntries = overflowTasks.
Proof.
  intros Hb Ha; unfold resolvedTasks, overflowEntries; cbn [flat_map Key].
  change (usable {| Key := "b"; IntervalMS := 100; Enabled := true |}) with true.
  change (usable {| Key := "a"; IntervalMS := 9223372036855; Enabled := true |})
    with true.
  cbv iota; rewrite Hb, Ha; reflexivity.
Qed.

(** C9, where the code breaks it.  The two entries of [overflowEntries] are
    accepted by the Add dialog, both resolve, and on both platforms a click
    on Start hands their two tasks to [runner.Start]; the interval of the
    second, 9223372036855 ms in nanoseconds, has wrapped around to a
    negative duration.  Its executor is launched, but the making of its
    ticker panics, which ends the program and with it the executor of the
    first entry; whatever the interleaving up to there, the second entry is
    never injected: a successfully resolved entry does not run. *)
Theorem C9_overflow_stops_the_run (p : Platform) :
  [fst (showAddDialog "b" "100" true);
   fst (showAddDialog "a" "9223372036855" true)]
    = map Some overflowEntries /\
  started (DarwinMain.startButton_OnClicked (IsRunning initial) overflowEntries)
    = Some overflowTasks /\
  started (WindowsMain.startButton_OnClicked (IsRunning initial) overflowEntries)
    = Some overflowTasks /\
  exists s',
    run p (startTrace overflowTasks) initial = Some s' /\
    executors s' = launched overflowTasks /\
    step p (Setup 1) s' = Panic /\
    forall later s'', run p later s' = Some s'' ->
      Forall (fun x => fst x <> 1%nat) (injected s'').
Proof.
  split; [reflexivity|].
  assert (Hmac : resolvedTasks Darwin.parseMacInput overflowEntries = overflowTasks).
  { apply overflow_tasks; rewrite parseMacInput_rules;
      now apply resolve_single. }
  assert (Hwin : resolvedTasks Windows.parseKeyInput overflowEntries = overflowTasks).
  { apply overflow_tasks; rewrite parseKeyInput_rules;
      now apply resolve_single. }
  split; [|split].
  - destruct (darwin_click overflowEntries) as [Hst _].
    rewrite Hmac in Hst; exact Hst.
  - destruct (windows_click overflowEntries) as [Hst _].
    rewrite Hwin in Hst; exact Hst.
  - eexists; split; [reflexivity|].
    split; [reflexivity | split; [reflexivity|]].
    intros later s'' Hr.
    eapply run_cannotTick in Hr as (extra & Hlog & Hall).
    + rewrite Hlog; exact Hall.
    + eexists; split; [reflexivity | split; [reflexivity | simpl; lia]].
Qed.


End Handlers.


End ExecutorsOfARun.
